(** * eBay NER preprocessing: fragment merging and IOB encoding

    A shallow embedding of [src/utilities.py]:

    - [fix_aspect_values] (module [Merger]) walks a tagged-title table from
      its last row to its first, glues the token of every row without a tag
      onto the row before it and drops the row;
    - [convert_to_iob] (module [Encoder]) groups a table by record number and
      turns the aspect names of every group into IOB labels.

    [fix_aspect_values] writes into the table it is given and rebinds its
    local name [df] to fresh tables, so the tables live in a store and the
    function is a computation over that store.  [convert_to_iob] only reads
    two columns and is a function on the list of rows. *)

From Stdlib Require Import ZArith Lia Sorted Ascii.
From stdpp Require Import gmap strings list sorting.

Local Open Scope Z_scope.

(** ** Exceptions and the store monad *)

(** The keys pandas complains about: an index label or a column header. *)
Inductive key :=
  | KLabel (i : Z)
  | KColumn (c : string).

(** [KeyError] is the only exception the modelled code can raise.
    [InvalidReference] stands for a name bound to no table; Python has no such
    state, and [MergerFacts.fix_aspect_values_no_invalid_reference] shows it is
    never produced from a store that holds the argument. *)
Inductive exn :=
  | KeyError (k : key)
  | InvalidReference.

Inductive result (A : Type) :=
  | Ok (a : A)
  | Raise (e : exn).
Arguments Ok {A} a.
Arguments Raise {A} e.

Module Merger.

(** One line of the tagged-titles file, with the four columns that
    [load_tagged_titles] reads: the record number is an integer, title and
    token are text, and [Tag] is [None] where pandas holds NaN. *)
Record Row := mkRow {
  Record_Number : Z;
  Title : string;
  Token : string;
  Tag : option string
}.

Definition set_Token (v : string) (r : Row) : Row :=
  {| Record_Number := Record_Number r; Title := Title r;
     Token := v; Tag := Tag r |}.

(** A table: the headers of its four columns, in file order, and its rows in
    display order, each under its index label. *)
Record DataFrame := mkDataFrame {
  columns : list string;
  body : list (Z * Row)
}.

(** Tables live in a store and are reached through references. *)
Abbreviation loc := positive (only parsing).
Abbreviation Store := (gmap positive DataFrame) (only parsing).

Definition M (A : Type) : Type := Store -> Store * result A.

#[export] Instance M_ret : MRet M := fun A (a : A) s => (s, Ok a).

#[export] Instance M_bind : MBind M := fun A B (k : A -> M B) (c : M A) s =>
  match c s with
  | (s', Ok a) => k a s'
  | (s', Raise e) => (s', Raise e)
  end.

Definition raise {A} (e : exn) : M A := fun s => (s, Raise e).

Definition read (df : loc) : M DataFrame :=
  fun s =>
    match s !! df with
    | Some f => (s, Ok f)
    | None => (s, Raise InvalidReference)
    end.

Definition write (df : loc) (f : DataFrame) : M unit :=
  fun s => (<[df := f]> s, Ok tt).

Definition alloc (f : DataFrame) : M loc :=
  fun s => let l := fresh (dom s) in (<[l := f]> s, Ok l).

(** ** The pandas operations the function uses *)

(** Headers of the table [load_tagged_titles] returns. *)
Definition tagged_columns : list string :=
  ["Record Number"; "Title"; "Token"; "Tag"].

(** Position of a header among the columns. *)
Fixpoint column_position (c : string) (cols : list string) : option nat :=
  match cols with
  | [] => None
  | c' :: cols' =>
      if String.eqb c c' then Some 0%nat
      else S <$> column_position c cols'
  end.

(** First row under index label [i]. *)
Fixpoint row_at (i : Z) (b : list (Z * Row)) : option Row :=
  match b with
  | [] => None
  | (j, r) :: b' => if j =? i then Some r else row_at i b'
  end.

(** [df.loc[i, c]] for the column held in field [field] at position [pos]:
    a [KeyError] when the header or the label is absent. *)
Definition loc_get {A} (pos : nat) (field : Row -> A)
    (df : loc) (i : Z) (c : string) : M A :=
  f ← read df;
  if decide (column_position c (columns f) = Some pos) then
    match row_at i (body f) with
    | Some r => mret (field r)
    | None => raise (KeyError (KLabel i))
    end
  else raise (KeyError (KColumn c)).

Definition loc_Token : loc -> Z -> string -> M string := loc_get 2 Token.
Definition loc_Tag : loc -> Z -> string -> M (option string) := loc_get 3 Tag.

(** [df.loc[i, 'Token'] = v]: writes into the table [df] refers to, in every
    row labelled [i].  With an absent label pandas would append a row; the
    function reads the same cell on the right-hand side first, and that read
    raises, so the assignment is only reached with a label that exists and
    the absent case is a [KeyError] here. *)
Definition loc_set_Token (df : loc) (i : Z) (c : string) (v : string) : M unit :=
  f ← read df;
  if decide (column_position c (columns f) = Some 2%nat) then
    match row_at i (body f) with
    | Some _ =>
        write df
          {| columns := columns f;
             body := map (fun p => if fst p =? i then (fst p, set_Token v (snd p)) else p)
                         (body f) |}
    | None => raise (KeyError (KLabel i))
    end
  else raise (KeyError (KColumn c)).

(** [len(df)]. *)
Definition len (df : loc) : M Z :=
  f ← read df; mret (Z.of_nat (length (body f))).

(** [df.drop(i)]: a new table without the rows labelled [i]; the table [df]
    refers to is left as it is.  [KeyError] when no row has the label. *)
Definition drop (df : loc) (i : Z) : M loc :=
  f ← read df;
  match row_at i (body f) with
  | Some _ =>
      alloc {| columns := columns f;
               body := filter (fun p => fst p ≠ i) (body f) |}
  | None => raise (KeyError (KLabel i))
  end.

(** Rows numbered from 0, as a [RangeIndex] does. *)
Definition enumerate (rows : list Row) : list (Z * Row) :=
  imap (fun i r => (Z.of_nat i, r)) rows.

(** [df.reset_index(drop=True)]: a new table, same rows, labels 0..n-1. *)
Definition reset_index (df : loc) : M loc :=
  f ← read df;
  alloc {| columns := columns f; body := enumerate (map snd (body f)) |}.

Fixpoint rename_header (mapping : list (string * string)) (c : string) : string :=
  match mapping with
  | [] => c
  | (old, new) :: mapping' =>
      if String.eqb c old then new else rename_header mapping' c
  end.

(** [df.rename(columns=mapping, inplace=True)]. *)
Definition rename (df : loc) (mapping : list (string * string)) : M unit :=
  f ← read df;
  write df {| columns := map (rename_header mapping) (columns f);
              body := body f |}.

(** [pd.isna] on a tag cell. *)
Definition isna (t : option string) : bool :=
  match t with
  | None => true
  | Some _ => false
  end.

(** Python's [range(start, stop, step)]; empty for a zero step, where Python
    raises. *)
Definition range (start stop step : Z) : list Z :=
  if 0 <? step then
    map (fun j => start + Z.of_nat j * step)
        (seq 0 (Z.to_nat ((stop - start + step - 1) / step)))
  else if step <? 0 then
    map (fun j => start + Z.of_nat j * step)
        (seq 0 (Z.to_nat ((start - stop - step - 1) / (- step))))
  else [].

(** A [for] loop whose body may rebind [df]. *)
Fixpoint for_each (ixs : list Z) (step : Z -> loc -> M loc) (df : loc) : M loc :=
  match ixs with
  | [] => mret df
  | i :: ixs' => df' ← step i df; for_each ixs' step df'
  end.

(** ** [fix_aspect_values] *)

(** Lines 107-111: the body of the loop. *)
Definition merge_row (i : Z) (df : loc) : M loc :=
  t ← loc_Tag df i "Tag";
  if isna t then
    a ← loc_Token df (i - 1) "Token";
    b ← loc_Token df i "Token";
    loc_set_Token df (i - 1) "Token" ((a +:+ " ") +:+ b) ;;
    drop df i
  else mret df.

Definition fix_aspect_values (df : loc) : M loc :=
  n ← len df;
  df ← for_each (range (n - 1) (-1) (-1)) merge_row df;
  df ← reset_index df;
  rename df [("Token", "Aspect Value"); ("Tag", "Aspect Name")] ;;
  mret df.

(** The table a caller holds for the rows of a tagged-titles file. *)
Definition tagged_frame (rows : list Row) : DataFrame :=
  {| columns := tagged_columns; body := enumerate rows |}.

Definition merged_columns : list string :=
  ["Record Number"; "Title"; "Aspect Value"; "Aspect Name"].

(** ** The loop, read off on lists of rows *)

(** What a row does to the rows behind it.  [acc] holds the text that the
    rows behind still owe to their predecessor, and the rows behind that stay
    in the table. *)
Definition merge_step (r : Row) (acc : string * list Row) : string * list Row :=
  let r' := set_Token (Token r +:+ fst acc) r in
  if isna (Tag r) then (" " +:+ Token r', snd acc)
  else ("", r' :: snd acc).

Definition merge_all (rows kept : list Row) : string * list Row :=
  foldr merge_step ("", kept) rows.

(** Tokens of the untagged rows that follow directly. *)
Fixpoint fragments (rows : list Row) : list string :=
  match rows with
  | [] => []
  | r :: rest => if isna (Tag r) then Token r :: fragments rest else []
  end.

(** The merged table as the specification words it: every tagged row, its
    token followed by the tokens of its fragments in the order of the table,
    with one space between neighbours. *)
Fixpoint spans (rows : list Row) : list Row :=
  match rows with
  | [] => []
  | r :: rest =>
      if isna (Tag r) then spans rest
      else set_Token (String.concat " " (Token r :: fragments rest)) r :: spans rest
  end.

Definition count_tagged (rows : list Row) : nat :=
  length (filter (fun r => isna (Tag r) = false) rows).

Definition first_tag_missing (rows : list Row) : bool :=
  match rows with
  | [] => false
  | r :: _ => isna (Tag r)
  end.

(** A row without a tag that has no row of its own record before it. *)
Fixpoint orphan_fragment (prev : option Z) (rows : list Row) : bool :=
  match rows with
  | [] => false
  | r :: rest =>
      (isna (Tag r) && negb (bool_decide (prev = Some (Record_Number r))))
      || orphan_fragment (Some (Record_Number r)) rest
  end.

(** The caller's table after the call, rows taken last to first: the first
    untagged row met has its token glued onto the row before it, if there is
    one, and nothing else is written. *)
Fixpoint touch_rev (rrows : list Row) : list Row :=
  match rrows with
  | [] => []
  | r :: rrows' =>
      if isna (Tag r) then
        match rrows' with
        | [] => [r]
        | q :: rrows'' => r :: set_Token ((Token q +:+ " ") +:+ Token r) q :: rrows''
        end
      else r :: touch_rev rrows'
  end.

Definition caller_rows (rows : list Row) : list Row :=
  rev (touch_rev (rev rows)).

(** ** Notions used in the proofs *)

(** The table while the loop runs: the rows not yet visited, numbered from 0,
    then the rows that were visited and kept. *)
Definition loop_frame (pre : list Row) (kept : list (Z * Row)) : DataFrame :=
  {| columns := tagged_columns; body := enumerate pre ++ kept |}.

(** What holds after the loop has visited the rows [rev rpre], started on the
    table [cur] of the store [s]. *)
Definition loop_post (rpre : list Row) (kept : list (Z * Row))
    (s : Store) (cur : loc) (out : Store * result loc) : Prop :=
  (forall l f, l ≠ cur -> s !! l = Some f -> fst out !! l = Some f) /\
  fst out !! cur = Some (loop_frame (rev (touch_rev rpre)) kept) /\
  if decide (fst (merge_all (rev rpre) (map snd kept)) = "") then
    exists cur' b,
      snd out = Ok cur' /\
      fst out !! cur' = Some {| columns := tagged_columns; body := b |} /\
      map snd b = snd (merge_all (rev rpre) (map snd kept))
  else snd out = Raise (KeyError (KLabel (-1))).

(** ** Concrete tables *)

Definition apple_inc : list Row :=
  [mkRow 1 "Apple Inc phone" "Apple" (Some "Brand");
   mkRow 1 "Apple Inc phone" "Inc" None;
   mkRow 1 "Apple Inc phone" "phone" (Some "O")].

(** A fragment that opens record 2. *)
Definition two_records : list Row :=
  [mkRow 1 "Apple" "Apple" (Some "Brand");
   mkRow 2 "Inc phone" "Inc" None;
   mkRow 2 "Inc phone" "phone" (Some "O")].

Definition apple_inc_pair : list Row :=
  [mkRow 1 "Apple Inc" "Apple" (Some "Brand");
   mkRow 1 "Apple Inc" "Inc" None].

Definition clean_rows : list Row :=
  [mkRow 1 "Apple phone" "Apple" (Some "Brand");
   mkRow 1 "Apple phone" "phone" (Some "O")].

Definition store_of (rows : list Row) : Store :=
  {[ 1%positive := tagged_frame rows ]}.

(** ** Further notions *)

(** All tokens of a table, each after one space. *)
Fixpoint glue (rows : list Row) : string :=
  match rows with
  | [] => ""
  | r :: rest => " " +:+ (Token r +:+ glue rest)
  end.

(** A table whose last positional label is missing from its index. *)
Definition gapped_rows : list (Z * Row) :=
  [(0, mkRow 1 "Apple phone" "Apple" (Some "Brand"));
   (2, mkRow 1 "Apple phone" "phone" (Some "O"))].

End Merger.

Module Encoder.

(** One row of the merged table, as [convert_to_iob] receives it.  The
    function reads the columns 'Record Number' and 'Aspect Name' only and
    walks the rows by position, so index labels are not part of the model.
    Record numbers are integers, so [groupby] leaves no row out, and aspect
    names are text. *)
Record Row := mkRow {
  Record_Number : Z;
  Title : string;
  Aspect_Value : string;
  Aspect_Name : string
}.

(** ** Python strings *)

(** [s.replace(old, new)]: occurrences of [old] are found from the left and
    do not overlap.  [skip] counts the characters of a found occurrence that
    are still to be passed over.  With an empty [old] Python puts [new]
    before every character and at the end. *)
Fixpoint replace_from (old new : string) (skip : nat) (s : string) : string :=
  match s with
  | EmptyString =>
      match old with
      | EmptyString => new
      | String _ _ => EmptyString
      end
  | String c s' =>
      match skip with
      | S k => replace_from old new k s'
      | O =>
          if String.prefix old s then
            match String.length old with
            | O => new +:+ String c (replace_from old new 0 s')
            | S k => new +:+ replace_from old new k s'
            end
          else String c (replace_from old new 0 s')
      end
  end.

Definition str_replace (old new s : string) : string :=
  replace_from old new 0 s.

(** ** [df.groupby('Record Number')] *)

(** pandas' [groupby] with its defaults ([sort=True]): iterating yields one
    group per distinct record number, in ascending order of the number, and a
    group holds its rows in the order of the table.  [add_to_group] files one
    more row of the table. *)
Fixpoint add_to_group (k : Z) (r : Row) (groups : list (Z * list Row))
    : list (Z * list Row) :=
  match groups with
  | [] => [(k, [r])]
  | (k', g) :: groups' =>
      if k <? k' then (k, [r]) :: groups
      else if k =? k' then (k', g ++ [r]) :: groups'
      else (k', g) :: add_to_group k r groups'
  end.

Definition groupby (df : list Row) : list (Z * list Row) :=
  fold_left (fun groups r => add_to_group (Record_Number r) r groups) df [].

(** ** [convert_to_iob] *)

(** The two variables the inner loop updates. *)
Record State := mkState {
  converted_labels : list string;
  previous_label : string
}.

(** Lines 145-158: one pass of the inner loop. *)
Definition label_step (st : State) (label : string) : State :=
  if String.eqb label "O" then
    {| converted_labels := converted_labels st ++ ["O"];
       previous_label := "O" |}
  else
    {| converted_labels :=
         converted_labels st ++
           [if negb (String.eqb label (str_replace "I-" "" (previous_label st)))
            then "B-" +:+ label
            else "I-" +:+ label];
       previous_label := "I-" +:+ label |}.

(** Lines 141-158: one pass of the outer loop.  [previous_label] is assigned
    before it is read, so only [converted_labels] goes from one group to the
    next. *)
Definition convert_group (labels : list string) (group : list Row) : list string :=
  converted_labels
    (fold_left label_step (map Aspect_Name group)
       {| converted_labels := labels; previous_label := "O" |}).

Definition convert_to_iob (df : list Row) : list string :=
  fold_left (fun labels g => convert_group labels (snd g)) (groupby df) [].

(** ** The encoder as the specification words it *)

(** The entity type of a previous label: the label without a leading "I-". *)
Definition strip_I_prefix (s : string) : string :=
  match s with
  | String "I"%char (String "-"%char rest) => rest
  | _ => s
  end.

(** The state machine of the specification, one group at a time: the label
    emitted for [label] after [previous], and the labels of the rest. *)
Fixpoint spec_labels (previous : string) (names : list string) : list string :=
  match names with
  | [] => []
  | label :: names' =>
      if String.eqb label "O" then "O" :: spec_labels "O" names'
      else if String.eqb (strip_I_prefix previous) label
           then ("I-" +:+ label) :: spec_labels ("I-" +:+ label) names'
           else ("B-" +:+ label) :: spec_labels ("I-" +:+ label) names'
  end.

(** Record numbers in the order in which each is first met. *)
Fixpoint first_seen (seen : list Z) (ks : list Z) : list Z :=
  match ks with
  | [] => []
  | k :: ks' =>
      if bool_decide (k ∈ seen) then first_seen seen ks'
      else k :: first_seen (k :: seen) ks'
  end.

Definition stable_group_order (df : list Row) : list Z :=
  first_seen [] (map Record_Number df).

(** ** Auxiliary notions *)

(** Does [old] occur in [s]? *)
Fixpoint occurs (old s : string) : bool :=
  match s with
  | EmptyString => String.prefix old s
  | String _ s' => String.prefix old s || occurs old s'
  end.

(** The labels of one group, started after [previous]. *)
Definition labels_from (previous : string) (names : list string) : list string :=
  converted_labels
    (fold_left label_step names
       {| converted_labels := []; previous_label := previous |}).

(** Number of rows in all groups. *)
Definition total_rows (groups : list (Z * list Row)) : nat :=
  length (concat (map snd groups)).

(** What the encoder reads of a row. *)
Definition key_label (r : Row) : Z * string :=
  (Record_Number r, Aspect_Name r).

(** A row with the cells the encoder does not read blanked. *)
Definition erase (r : Row) : Row :=
  {| Record_Number := Record_Number r; Title := "";
     Aspect_Value := ""; Aspect_Name := Aspect_Name r |}.

(** ** Concrete tables *)

Definition row (k : Z) (name : string) : Row :=
  {| Record_Number := k; Title := ""; Aspect_Value := name; Aspect_Name := name |}.

Definition boundary_rows : list Row :=
  map (row 7) ["O"; "Brand"; "Brand"; "O"; "Color"].

Definition two_groups : list Row :=
  [row 1 "Brand"; row 1 "Brand"; row 2 "Brand"].

Definition later_record_first : list Row :=
  [row 2 "Brand"; row 1 "O"].

Definition wifi_rows : list Row :=
  [row 1 "WI-FI"; row 1 "WI-FI"].

(** The previous labels the loop can hold when no aspect name contains
    "I-". *)
Definition plain_previous (previous : string) : Prop :=
  previous = "O" \/
  exists name, previous = "I-" +:+ name /\ occurs "I-" name = false.

Definition apple_red : list Row :=
  [mkRow 2 "Apple iPhone red" "Apple" "Brand";
   mkRow 2 "Apple iPhone red" "iPhone" "Brand";
   mkRow 1 "shoe" "shoe" "O"].

Definition other_text : list Row :=
  [mkRow 2 "" "Samsung Galaxy" "Brand";
   mkRow 2 "x" "" "Brand";
   mkRow 1 "y" "O" "O"].

(** ** Further notions *)

(** The rows of all groups, group after group: the order in which
    [convert_to_iob] emits its labels. *)
Definition flatten (groups : list (Z * list Row)) : list Row :=
  concat (map snd groups).

(** The aspect name an IOB label stands for: "O" for "O", else the label
    without its two-character mark. *)
Definition decode_label (l : string) : string :=
  if String.eqb l "O" then "O"
  else match l with
       | String _ (String _ name) => name
       | _ => l
       end.

(** The label of a row: "O" for a row named "O", else "B-" or "I-" and the
    name of the row. *)
Definition label_of_row (r : Row) (l : string) : Prop :=
  if String.eqb (Aspect_Name r) "O" then l = "O"
  else l = "B-" +:+ Aspect_Name r \/ l = "I-" +:+ Aspect_Name r.

(** Rows with their labels, in which every "I-" label continues a span of its
    own record: the row before belongs to the same record and carries the
    "B-" or "I-" label of the same name.  [before] is the record number and
    the label of the row in front, if there is one. *)
Fixpoint spans_well_formed (before : option (Z * string))
    (rows : list Row) (labels : list string) : Prop :=
  match rows, labels with
  | [], [] => True
  | r :: rows', l :: labels' =>
      (forall name, l = "I-" +:+ name ->
         before = Some (Record_Number r, "B-" +:+ name) \/
         before = Some (Record_Number r, "I-" +:+ name)) /\
      spans_well_formed (Some (Record_Number r, l)) rows' labels'
  | _, _ => False
  end.

Definition interleaved : list Row :=
  [row 2 "Brand"; row 1 "O"; row 2 "Brand"; row 1 "Color"].

Definition record_by_record : list Row :=
  [row 1 "O"; row 1 "Color"; row 2 "Brand"; row 2 "Brand"].

End Encoder.

(** * Proofs *)

Module MergerFacts.
Import Merger.

(** ** Strings *)

Lemma append_cons (c : Ascii.ascii) (s t : string) :
  String c s +:+ t = String c (s +:+ t).
Proof. reflexivity. Qed.

Lemma append_nil_r (s : string) : s +:+ "" = s.
Proof. induction s as [|c s IH]; [done | by rewrite append_cons, IH]. Qed.

Lemma append_assoc (a b c : string) : (a +:+ b) +:+ c = a +:+ (b +:+ c).
Proof. induction a as [|x a IH]; [done | by rewrite !append_cons, IH]. Qed.

(** ** Rows and labels *)

Lemma set_Token_same (r : Row) : set_Token (Token r) r = r.
Proof. by destruct r. Qed.

Lemma enumerate_snoc (rows : list Row) (r : Row) :
  enumerate (rows ++ [r]) = enumerate rows ++ [(Z.of_nat (length rows), r)].
Proof.
  unfold enumerate. rewrite imap_app. simpl. do 3 f_equal. lia.
Qed.

Lemma enumerate_labels (rows : list Row) :
  Forall (fun p => 0 <= fst p < Z.of_nat (length rows)) (enumerate rows).
Proof.
  induction rows as [|r rows IH] using rev_ind; [constructor|].
  rewrite enumerate_snoc, length_app. simpl.
  apply Forall_app. split.
  - eapply Forall_impl; [exact IH|]. simpl. intros; lia.
  - repeat constructor; simpl; lia.
Qed.

Lemma length_enumerate (rows : list Row) : length (enumerate rows) = length rows.
Proof. apply length_imap. Qed.

Lemma row_at_skip (i : Z) (b1 b2 : list (Z * Row)) :
  Forall (fun p => fst p ≠ i) b1 -> row_at i (b1 ++ b2) = row_at i b2.
Proof.
  induction 1 as [|[j r] b1 Hj _ IH]; simpl; [done|].
  simpl in Hj. destruct (Z.eqb_spec j i); [done | exact IH].
Qed.

Lemma row_at_absent (i : Z) (b : list (Z * Row)) :
  Forall (fun p => fst p ≠ i) b -> row_at i b = None.
Proof.
  intros H. rewrite <- (app_nil_r b). by rewrite row_at_skip.
Qed.

Lemma set_skip (i : Z) (v : string) (b : list (Z * Row)) :
  Forall (fun p => fst p ≠ i) b ->
  map (fun p => if fst p =? i then (fst p, set_Token v (snd p)) else p) b = b.
Proof.
  induction 1 as [|[j r] b Hj _ IH]; simpl; [done|].
  simpl in Hj. destruct (Z.eqb_spec j i); [done | by rewrite IH].
Qed.

Lemma drop_skip (i : Z) (b : list (Z * Row)) :
  Forall (fun p => fst p ≠ i) b -> filter (fun p => fst p ≠ i) b = b.
Proof.
  induction 1 as [|p b Hp _ IH]; [done|].
  rewrite filter_cons_True by done. by rewrite IH.
Qed.

(** ** The descending range of the loop *)

Lemma range_down (n : nat) :
  range (Z.of_nat n - 1) (-1) (-1) =
  map (fun j => Z.of_nat n - 1 - Z.of_nat j) (seq 0 n).
Proof.
  unfold range.
  change (0 <? -1) with false. change (-1 <? 0) with true. cbv iota.
  change (- -1) with 1. rewrite Z.div_1_r.
  replace (Z.to_nat (Z.of_nat n - 1 - -1 - -1 - 1)) with n by lia.
  apply map_ext. intros; lia.
Qed.

Lemma range_down_0 : range (Z.of_nat 0 - 1) (-1) (-1) = [].
Proof. by rewrite range_down. Qed.

Lemma range_down_S (n : nat) :
  range (Z.of_nat (S n) - 1) (-1) (-1) =
  Z.of_nat n :: range (Z.of_nat n - 1) (-1) (-1).
Proof.
  rewrite !range_down. simpl seq. simpl map. f_equal; [lia|].
  rewrite <- seq_shift, map_map. apply map_ext. intros; lia.
Qed.


(** ** One cell, one row *)

Section OneLabel.
Context (i : Z) (x : Row) (b1 b2 : list (Z * Row)).
Hypothesis Hb1 : Forall (fun p => fst p ≠ i) b1.
Hypothesis Hb2 : Forall (fun p => fst p ≠ i) b2.

Lemma row_at_here : row_at i (b1 ++ (i, x) :: b2) = Some x.
Proof. rewrite row_at_skip by done. simpl. by rewrite Z.eqb_refl. Qed.

Lemma set_here (v : string) :
  map (fun p => if fst p =? i then (fst p, set_Token v (snd p)) else p)
      (b1 ++ (i, x) :: b2)
  = b1 ++ (i, set_Token v x) :: b2.
Proof.
  rewrite map_app, set_skip by done. simpl.
  by rewrite Z.eqb_refl, set_skip.
Qed.

Lemma drop_here :
  filter (fun p => fst p ≠ i) (b1 ++ (i, x) :: b2) = b1 ++ b2.
Proof.
  rewrite filter_app, drop_skip by done.
  rewrite filter_cons_False by (simpl; tauto).
  by rewrite drop_skip.
Qed.

End OneLabel.

(** ** Running the primitives *)

Lemma run_bind {A B} (c : M A) (k : A -> M B) (s : Store) :
  (c ≫= k) s =
  match c s with
  | (s', Ok a) => k a s'
  | (s', Raise e) => (s', Raise e)
  end.
Proof. reflexivity. Qed.

Section Primitives.
Context (s : Store) (df : loc) (f : DataFrame).
Hypothesis Hdf : s !! df = Some f.

Lemma run_read : read df s = (s, Ok f).
Proof. unfold read. by rewrite Hdf. Qed.

Lemma run_len : len df s = (s, Ok (Z.of_nat (length (body f)))).
Proof. unfold len. by rewrite run_bind, run_read. Qed.

Lemma run_loc_get {A} (pos : nat) (field : Row -> A) (i : Z) (c : string) :
  column_position c (columns f) = Some pos ->
  loc_get pos field df i c s =
  match row_at i (body f) with
  | Some r => (s, Ok (field r))
  | None => (s, Raise (KeyError (KLabel i)))
  end.
Proof.
  intros Hc. unfold loc_get. rewrite run_bind, run_read.
  rewrite decide_True by done. by destruct (row_at i (body f)).
Qed.

Lemma run_loc_set_Token (i : Z) (c v : string) (r : Row) :
  column_position c (columns f) = Some 2%nat ->
  row_at i (body f) = Some r ->
  loc_set_Token df i c v s =
  (<[df := {| columns := columns f;
              body := map (fun p => if fst p =? i
                                    then (fst p, set_Token v (snd p)) else p)
                          (body f) |}]> s, Ok tt).
Proof.
  intros Hc Hr. unfold loc_set_Token. rewrite run_bind, run_read.
  rewrite decide_True by done. by rewrite Hr.
Qed.

Lemma run_drop (i : Z) (r : Row) :
  row_at i (body f) = Some r ->
  drop df i s =
  (<[fresh (dom s) := {| columns := columns f;
                         body := filter (fun p => fst p ≠ i) (body f) |}]> s,
   Ok (fresh (dom s))).
Proof.
  intros Hr. unfold drop. rewrite run_bind, run_read. by rewrite Hr.
Qed.

Lemma run_reset_index :
  reset_index df s =
  (<[fresh (dom s) := {| columns := columns f;
                         body := enumerate (map snd (body f)) |}]> s,
   Ok (fresh (dom s))).
Proof. unfold reset_index. by rewrite run_bind, run_read. Qed.

Lemma run_rename (mapping : list (string * string)) :
  rename df mapping s =
  (<[df := {| columns := map (rename_header mapping) (columns f);
              body := body f |}]> s, Ok tt).
Proof. unfold rename. by rewrite run_bind, run_read. Qed.

End Primitives.


(** ** One pass of the loop *)

Lemma labels_differ (n : Z) (i : Z) (b : list (Z * Row)) :
  Forall (fun p => n <= fst p) b -> i < n -> Forall (fun p => fst p ≠ i) b.
Proof. intros H Hi. eapply Forall_impl; [exact H|]. simpl. intros; lia. Qed.

Lemma enumerate_differ (rows : list Row) (i : Z) :
  i < 0 \/ Z.of_nat (length rows) <= i ->
  Forall (fun p => fst p ≠ i) (enumerate rows).
Proof.
  intros Hi. eapply Forall_impl; [apply enumerate_labels|]. simpl. intros; lia.
Qed.

Lemma merge_row_tagged (pre : list Row) (r : Row) (kept : list (Z * Row))
    (s : Store) (cur : loc) :
  s !! cur = Some (loop_frame (pre ++ [r]) kept) ->
  Forall (fun p => Z.of_nat (S (length pre)) <= fst p) kept ->
  isna (Tag r) = false ->
  merge_row (Z.of_nat (length pre)) cur s = (s, Ok cur).
Proof.
  intros Hs Hk Ht. unfold merge_row, loc_Tag.
  rewrite run_bind, (run_loc_get _ _ _ Hs) by done.
  simpl body. rewrite enumerate_snoc, <- app_assoc. simpl.
  rewrite row_at_here by (apply enumerate_differ; lia).
  by rewrite Ht.
Qed.

Lemma merge_row_first (r : Row) (kept : list (Z * Row)) (s : Store) (cur : loc) :
  s !! cur = Some (loop_frame [r] kept) ->
  Forall (fun p => 1 <= fst p) kept ->
  isna (Tag r) = true ->
  merge_row 0 cur s = (s, Raise (KeyError (KLabel (-1)))).
Proof.
  intros Hs Hk Ht. unfold merge_row, loc_Tag, loc_Token.
  rewrite run_bind, (run_loc_get _ _ _ Hs) by done.
  simpl. rewrite Ht.
  rewrite run_bind, (run_loc_get _ _ _ Hs) by done.
  simpl. change (0 - 1) with (-1).
  rewrite (row_at_absent (-1) kept); [done|].
  eapply labels_differ; [exact Hk | lia].
Qed.

Lemma merge_row_fragment (pre : list Row) (q r : Row) (kept : list (Z * Row))
    (s : Store) (cur : loc) :
  s !! cur = Some (loop_frame (pre ++ [q; r]) kept) ->
  Forall (fun p => Z.of_nat (S (S (length pre))) <= fst p) kept ->
  isna (Tag r) = true ->
  let q' := set_Token ((Token q +:+ " ") +:+ Token r) q in
  let s1 := <[cur := loop_frame (pre ++ [q'; r]) kept]> s in
  merge_row (Z.of_nat (S (length pre))) cur s =
  (<[fresh (dom s1) := loop_frame (pre ++ [q']) kept]> s1, Ok (fresh (dom s1))).
Proof.
  intros Hs Hk Ht q' s1.
  assert (Hpre : Forall (fun p => fst p ≠ Z.of_nat (S (length pre))) (enumerate pre))
    by (apply enumerate_differ; lia).
  assert (Hpre' : Forall (fun p => fst p ≠ Z.of_nat (length pre)) (enumerate pre))
    by (apply enumerate_differ; lia).
  assert (Hbody : forall a b : Row,
    enumerate (pre ++ [a; b]) ++ kept =
    enumerate pre ++ (Z.of_nat (length pre), a) ::
      (Z.of_nat (S (length pre)), b) :: kept).
  { intros a b. change [a; b] with ([a] ++ [b]).
    rewrite app_assoc, !enumerate_snoc, length_app, <- !app_assoc. simpl.
    do 4 f_equal. lia. }
  assert (Hbody' : forall a b : Row,
    enumerate (pre ++ [a; b]) ++ kept =
    (enumerate pre ++ [(Z.of_nat (length pre), a)]) ++
      (Z.of_nat (S (length pre)), b) :: kept).
  { intros a b. by rewrite Hbody, <- app_assoc. }
  assert (Hq : forall a : Row, Forall (fun p => fst p ≠ Z.of_nat (S (length pre)))
                 (enumerate pre ++ [(Z.of_nat (length pre), a)])).
  { intros a. apply Forall_app. split; [done|]. repeat constructor. simpl. lia. }
  assert (Hk1 : Forall (fun p => fst p ≠ Z.of_nat (S (length pre))) kept)
    by (eapply labels_differ; [exact Hk | lia]).
  assert (Hk2 : Forall (fun p => fst p ≠ Z.of_nat (length pre))
                  ((Z.of_nat (S (length pre)), r) :: kept)).
  { constructor; [simpl; lia|]. eapply labels_differ; [exact Hk | lia]. }
  unfold merge_row, loc_Tag, loc_Token.
  rewrite run_bind, (run_loc_get _ _ _ Hs) by done.
  simpl body. rewrite (Hbody' q r), row_at_here by done. rewrite Ht.
  rewrite run_bind, (run_loc_get _ _ _ Hs) by done.
  simpl body. replace (Z.of_nat (S (length pre)) - 1) with (Z.of_nat (length pre)) by lia.
  rewrite (Hbody q r), row_at_here by done.
  rewrite run_bind, (run_loc_get _ _ _ Hs) by done.
  simpl body. rewrite (Hbody' q r), row_at_here by done.
  rewrite run_bind.
  erewrite (run_loc_set_Token _ _ _ Hs); [|done|].
  2:{ simpl body. rewrite (Hbody q r). by apply row_at_here. }
  simpl body. simpl columns. rewrite (Hbody q r), set_here by done.
  fold q'. rewrite <- (Hbody q' r).
  change {| columns := tagged_columns; body := enumerate (pre ++ [q'; r]) ++ kept |}
    with (loop_frame (pre ++ [q'; r]) kept).
  fold s1.
  assert (Hs1 : s1 !! cur = Some (loop_frame (pre ++ [q'; r]) kept))
    by apply lookup_insert_eq.
  erewrite (run_drop _ _ _ Hs1).
  2:{ simpl body. rewrite (Hbody' q' r). by apply row_at_here. }
  simpl body. simpl columns. rewrite (Hbody' q' r), drop_here by done.
  unfold loop_frame. by rewrite enumerate_snoc.
Qed.


(** ** The loop on lists *)

Lemma merge_step_tagged (r : Row) (kept : list Row) :
  isna (Tag r) = false -> merge_step r ("", kept) = ("", r :: kept).
Proof.
  intros Ht. unfold merge_step. simpl. rewrite Ht.
  by rewrite append_nil_r, set_Token_same.
Qed.

Lemma merge_step_fragment (q r : Row) (kept : list Row) :
  isna (Tag r) = true ->
  merge_step q (merge_step r ("", kept)) =
  merge_step (set_Token ((Token q +:+ " ") +:+ Token r) q) ("", kept).
Proof.
  intros Ht. unfold merge_step at 2. simpl. rewrite Ht.
  unfold merge_step. simpl. rewrite !append_nil_r, append_assoc.
  by destruct (isna (Tag q)).
Qed.

Lemma merge_all_snoc (rows : list Row) (r : Row) (kept : list Row) :
  merge_all (rows ++ [r]) kept =
  foldr merge_step (merge_step r ("", kept)) rows.
Proof. unfold merge_all. by rewrite foldr_app. Qed.

Lemma touch_rev_length (rrows : list Row) :
  length (touch_rev rrows) = length rrows.
Proof.
  induction rrows as [|r rrows IH]; [done|]. simpl.
  destruct (isna (Tag r)); [by destruct rrows | simpl; by rewrite IH].
Qed.

Lemma loop_frame_snoc (pre : list Row) (r : Row) (kept : list (Z * Row)) :
  loop_frame (pre ++ [r]) kept =
  loop_frame pre ((Z.of_nat (length pre), r) :: kept).
Proof. unfold loop_frame. by rewrite enumerate_snoc, <- app_assoc. Qed.

Lemma loop_spec (n : nat) :
  forall (rpre : list Row) (kept : list (Z * Row)) (s : Store) (cur : loc),
    length rpre = n ->
    s !! cur = Some (loop_frame (rev rpre) kept) ->
    Forall (fun p => Z.of_nat n <= fst p) kept ->
    loop_post rpre kept s cur
      (for_each (range (Z.of_nat n - 1) (-1) (-1)) merge_row cur s).
Proof.
  induction n as [|n IH]; intros rpre kept s cur Hlen Hs Hk.
  - destruct rpre; [|done]. rewrite range_down_0. simpl.
    repeat split; [done..|]. simpl.
    exists cur, kept. by rewrite Hs.
  - destruct rpre as [|r rpre]; [done|].
    injection Hlen as Hlen.
    rewrite range_down_S. simpl for_each. rewrite run_bind.
    simpl rev in Hs.
    assert (Hrev : length (rev rpre) = n) by (by rewrite length_rev).
    destruct (isna (Tag r)) eqn:Ht.
    + destruct rpre as [|q rpre].
      * (* the first row of the table has no tag *)
        simpl in Hlen. subst n. simpl in Hs.
        change (Z.of_nat 0) with 0.
        rewrite (merge_row_first r kept s cur) by done.
        repeat split; [done| simpl; by rewrite Ht |].
        simpl. unfold merge_all, merge_step. simpl. by rewrite Ht.
      * (* a fragment with a row before it *)
        destruct n as [|n]; [done|]. injection Hlen as Hlen.
        simpl rev in Hs. rewrite <- app_assoc in Hs. simpl in Hs.
        assert (Hpre : length (rev rpre) = n) by (by rewrite length_rev).
        pose proof (merge_row_fragment (rev rpre) q r kept s cur) as Hrun.
        rewrite Hpre in Hrun. specialize (Hrun Hs Hk Ht).
        simpl in Hrun. rewrite Hrun. clear Hrun.
        set (q' := set_Token ((Token q +:+ " ") +:+ Token r) q) in *.
        set (s1 := <[cur := loop_frame (rev rpre ++ [q'; r]) kept]> s) in *.
        set (cur' := fresh (dom s1)).
        set (s2 := <[cur' := loop_frame (rev rpre ++ [q']) kept]> s1).
        assert (Hfresh : s1 !! cur' = None)
          by (apply not_elem_of_dom, is_fresh).
        clearbody cur'.
        assert (Hne : cur ≠ cur').
        { intros Heq. subst cur'. unfold s1 in Hfresh.
          by rewrite lookup_insert_eq in Hfresh. }
        destruct (IH (q' :: rpre) kept s2 cur') as (Hfr & _ & Hres).
        { simpl. by rewrite Hlen. }
        { unfold s2. by rewrite lookup_insert_eq. }
        { eapply Forall_impl; [exact Hk|]. simpl. intros; lia. }
        split; [|split].
        -- intros l f Hl Hlf.
           assert (Hl' : l ≠ cur').
           { intros Heq. subst l. unfold s1 in Hfresh.
             rewrite lookup_insert_ne in Hfresh by done. congruence. }
           apply Hfr; [done|].
           unfold s2, s1. by rewrite !lookup_insert_ne by done.
        -- apply Hfr; [done|]. unfold s2. rewrite lookup_insert_ne by done.
           unfold s1. rewrite lookup_insert_eq. simpl. rewrite Ht.
           simpl. by rewrite <- app_assoc.
        -- simpl rev in Hres. simpl rev.
           rewrite <- app_assoc. simpl.
           change [q; r] with ([q] ++ [r]). rewrite app_assoc.
           rewrite merge_all_snoc, foldr_app. simpl.
           rewrite merge_step_fragment by done. fold q'.
           rewrite merge_all_snoc in Hres. exact Hres.
    + (* a row with a tag stays *)
      pose proof (merge_row_tagged (rev rpre) r kept s cur) as Hrun.
      rewrite Hrev in Hrun. rewrite (Hrun Hs Hk Ht). clear Hrun.
      rewrite loop_frame_snoc, Hrev in Hs.
      destruct (IH rpre ((Z.of_nat n, r) :: kept) s cur) as (Hfr & Hcur & Hres);
        [done | done | |].
      { constructor; [simpl; lia|].
        eapply Forall_impl; [exact Hk|]. simpl. intros; lia. }
      split; [done|]. split.
      * simpl. rewrite Ht. simpl. rewrite loop_frame_snoc.
        by rewrite length_rev, touch_rev_length, Hlen.
      * simpl rev. rewrite merge_all_snoc, merge_step_tagged by done.
        exact Hres.
Qed.


(** ** The whole function *)

Lemma merge_all_fst (rows kept : list Row) :
  fst (merge_all rows kept) = "" <-> first_tag_missing rows = false.
Proof.
  destruct rows as [|r rows]; [done|].
  unfold merge_all. simpl. unfold merge_step.
  by destruct (isna (Tag r)).
Qed.

(** What a call does: to the other tables, to the caller's table and to its
    result. *)
Lemma fix_aspect_values_spec (s : Store) (df : loc) (rows : list Row) :
  s !! df = Some (tagged_frame rows) ->
  (forall l f, l ≠ df -> s !! l = Some f ->
     fst (fix_aspect_values df s) !! l = Some f) /\
  fst (fix_aspect_values df s) !! df = Some (tagged_frame (caller_rows rows)) /\
  if first_tag_missing rows then
    snd (fix_aspect_values df s) = Raise (KeyError (KLabel (-1)))
  else
    exists df',
      snd (fix_aspect_values df s) = Ok df' /\
      s !! df' = None /\
      fst (fix_aspect_values df s) !! df' =
        Some {| columns := merged_columns;
                body := enumerate (snd (merge_all rows [])) |}.
Proof.
  intros Hs. unfold fix_aspect_values.
  rewrite run_bind, (run_len _ _ _ Hs). simpl body.
  rewrite length_enumerate, run_bind.
  pose proof (loop_spec (length rows) (rev rows) [] s df) as Hloop.
  rewrite length_rev, rev_involutive in Hloop.
  unfold loop_frame in Hloop at 1. rewrite app_nil_r in Hloop.
  specialize (Hloop eq_refl Hs (List.Forall_nil _)).
  destruct (for_each _ merge_row df s) as [s' res].
  destruct Hloop as (Hfr & Hcur & Hres). simpl in Hfr, Hcur, Hres.
  unfold loop_frame in Hcur. rewrite app_nil_r in Hcur.
  fold (caller_rows rows) in Hcur. fold (tagged_frame (caller_rows rows)) in Hcur.
  rewrite rev_involutive in Hres.
  destruct (first_tag_missing rows) eqn:Hfirst.
  - rewrite decide_False in Hres
      by (intros H; apply merge_all_fst in H; congruence).
    subst res. done.
  - rewrite decide_True in Hres by (by apply merge_all_fst).
    destruct Hres as (cur' & b & -> & Hcur' & Hb).
    cbv iota. rewrite run_bind, (run_reset_index _ _ _ Hcur').
    simpl columns. simpl body. rewrite Hb, run_bind.
    set (df' := fresh (dom s')).
    assert (Hfresh : s' !! df' = None) by (apply not_elem_of_dom, is_fresh).
    clearbody df'.
    erewrite run_rename by apply lookup_insert_eq.
    simpl. rewrite insert_insert_eq.
    assert (Hne : df ≠ df') by congruence.
    assert (Hold : forall l f, s !! l = Some f -> l ≠ df').
    { intros l f Hl ->. destruct (decide (df' = df)) as [->|Hd]; [congruence|].
      rewrite (Hfr _ _ Hd Hl) in Hfresh. done. }
    split; [|split].
    + intros l f Hl Hlf. rewrite lookup_insert_ne by (symmetry; eauto). eauto.
    + by rewrite lookup_insert_ne by (symmetry; done).
    + exists df'. split; [done|]. split.
      * destruct (s !! df') eqn:E; [|done]. by apply Hold in E.
      * by rewrite lookup_insert_eq.
Qed.


(** ** The merged rows *)

Lemma merge_all_cons (r : Row) (rows kept : list Row) :
  merge_all (r :: rows) kept = merge_step r (merge_all rows kept).
Proof. reflexivity. Qed.

Lemma merge_all_count (rows kept : list Row) :
  length (snd (merge_all rows kept)) = (count_tagged rows + length kept)%nat.
Proof.
  unfold count_tagged.
  induction rows as [|r rows IH]; [done|].
  rewrite merge_all_cons. unfold merge_step.
  destruct (isna (Tag r)) eqn:Ht; simpl.
  - rewrite filter_cons_False by congruence. exact IH.
  - rewrite filter_cons_True by done. simpl. by rewrite IH.
Qed.

Lemma merge_all_clean (rows kept : list Row) :
  Forall (fun r => Tag r ≠ None) rows ->
  merge_all rows kept = ("", rows ++ kept).
Proof.
  induction 1 as [|r rows Hr _ IH]; [done|].
  rewrite merge_all_cons, IH. apply merge_step_tagged.
  by destruct (Tag r).
Qed.

Lemma merge_all_fragments (rows : list Row) (t : string) :
  t +:+ fst (merge_all rows []) = String.concat " " (t :: fragments rows).
Proof.
  revert t. induction rows as [|r rows IH]; intros t.
  - apply append_nil_r.
  - rewrite merge_all_cons. unfold merge_step. simpl fragments.
    destruct (isna (Tag r)); simpl.
    + by rewrite IH.
    + apply append_nil_r.
Qed.

Lemma merge_all_spans (rows : list Row) :
  snd (merge_all rows []) = spans rows.
Proof.
  induction rows as [|r rows IH]; [done|].
  rewrite merge_all_cons. unfold merge_step. simpl spans.
  destruct (isna (Tag r)); simpl; [done|].
  by rewrite IH, merge_all_fragments.
Qed.

(** ** The caller's rows *)

Lemma touch_rev_tagged (rrows tl : list Row) :
  Forall (fun r => isna (Tag r) = false) rrows ->
  touch_rev (rrows ++ tl) = rrows ++ touch_rev tl.
Proof.
  induction 1 as [|r rrows Hr _ IH]; [done|].
  simpl. by rewrite Hr, IH.
Qed.

Lemma touch_rev_one (rrows : list Row) :
  (length rrows <= 1)%nat -> touch_rev rrows = rrows.
Proof.
  destruct rrows as [|r [|q rrows]]; simpl; [done| |lia].
  by destruct (isna (Tag r)).
Qed.

Lemma caller_rows_clean (rows : list Row) :
  Forall (fun r => isna (Tag r) = false) (tail rows) ->
  caller_rows rows = rows.
Proof.
  intros H. unfold caller_rows. destruct rows as [|r rows]; [done|].
  simpl in *. rewrite touch_rev_tagged by (by apply Forall_rev).
  rewrite touch_rev_one by (simpl; lia).
  by rewrite rev_app_distr, rev_involutive.
Qed.

Lemma touch_rev_cells (rrows : list Row) :
  map (set_Token "") (touch_rev rrows) = map (set_Token "") rrows.
Proof.
  induction rrows as [|r rrows IH]; [done|]. simpl.
  destruct (isna (Tag r)); [by destruct rrows | simpl; by rewrite IH].
Qed.

Lemma caller_rows_cells (rows : list Row) :
  map (set_Token "") (caller_rows rows) = map (set_Token "") rows.
Proof.
  unfold caller_rows.
  by rewrite map_rev, touch_rev_cells, <- map_rev, rev_involutive.
Qed.


(** ** Properties of [fix_aspect_values] *)

(** The model's own error is never raised. *)
Lemma fix_aspect_values_no_invalid_reference (s : Store) (df : loc)
    (rows : list Row) :
  s !! df = Some (tagged_frame rows) ->
  snd (fix_aspect_values df s) ≠ Raise InvalidReference.
Proof.
  intros Hs. destruct (fix_aspect_values_spec s df rows Hs) as (_ & _ & H).
  destruct (first_tag_missing rows).
  - by rewrite H.
  - destruct H as (df' & -> & _). done.
Qed.

(** Claim C2, as amended.  A call fails exactly when the first row of the
    whole table has no tag, and then with a [KeyError] for the label -1.  In
    every other case it returns, also when a row without a tag opens a later
    record: that row is glued onto the row before it like any other. *)
Theorem merge_fails_only_on_first_row (s : Store) (df : loc) (rows : list Row) :
  s !! df = Some (tagged_frame rows) ->
  (first_tag_missing rows = true ->
   snd (fix_aspect_values df s) = Raise (KeyError (KLabel (-1)))) /\
  (first_tag_missing rows = false ->
   exists df',
     snd (fix_aspect_values df s) = Ok df' /\
     fst (fix_aspect_values df s) !! df' =
       Some {| columns := merged_columns; body := enumerate (spans rows) |}).
Proof.
  intros Hs. destruct (fix_aspect_values_spec s df rows Hs) as (_ & _ & H).
  split; intros Hfirst; rewrite Hfirst in H; [done|].
  destruct H as (df' & Hres & _ & Hout). exists df'.
  by rewrite <- merge_all_spans.
Qed.

(** Claim C4.  The table a call returns has as many rows as the input has
    rows with a tag; a call that raises does so because the first row has no
    tag. *)
Theorem merge_count (s : Store) (df : loc) (rows : list Row) :
  s !! df = Some (tagged_frame rows) ->
  match snd (fix_aspect_values df s) with
  | Ok df' =>
      exists f,
        fst (fix_aspect_values df s) !! df' = Some f /\
        length (body f) = count_tagged rows
  | Raise _ => first_tag_missing rows = true
  end.
Proof.
  intros Hs. destruct (fix_aspect_values_spec s df rows Hs) as (_ & _ & H).
  destruct (first_tag_missing rows).
  - by rewrite H.
  - destruct H as (df' & -> & _ & Hout). eexists. split; [exact Hout|].
    simpl. rewrite length_enumerate, merge_all_count. simpl. lia.
Qed.

(** Claim C5.  When the first row has a tag the call returns the rows
    [spans rows]: every tagged row with the tokens of its fragments behind
    its own, in the order of the table, one space between neighbours.  Tokens
    "Apple", "Inc" with tags "Brand", missing give the single row
    "Apple Inc" / "Brand". *)
Theorem merge_concatenation (s : Store) (df : loc) (rows : list Row) :
  s !! df = Some (tagged_frame rows) ->
  first_tag_missing rows = false ->
  exists df' out,
    snd (fix_aspect_values df s) = Ok df' /\
    fst (fix_aspect_values df s) !! df' =
      Some {| columns := merged_columns; body := enumerate out |} /\
    out = spans rows /\
    (forall n t1 t2,
       rows = [mkRow n t1 "Apple" (Some "Brand"); mkRow n t2 "Inc" None] ->
       out = [mkRow n t1 "Apple Inc" (Some "Brand")]).
Proof.
  intros Hs Hfirst.
  destruct (fix_aspect_values_spec s df rows Hs) as (_ & _ & H).
  rewrite Hfirst in H. destruct H as (df' & Hres & _ & Hout).
  exists df', (spans rows). rewrite <- merge_all_spans at 1.
  repeat split; [done..|]. by intros n t1 t2 ->.
Qed.

(** Claim C8.  On a table in which every row has a tag the call returns a
    table with the rows of the input: same values, same order, same
    labels. *)
Theorem merge_clean_identity (s : Store) (df : loc) (rows : list Row) :
  s !! df = Some (tagged_frame rows) ->
  Forall (fun r => Tag r ≠ None) rows ->
  exists df' f,
    snd (fix_aspect_values df s) = Ok df' /\
    fst (fix_aspect_values df s) !! df' = Some f /\
    body f = body (tagged_frame rows).
Proof.
  intros Hs Hclean.
  destruct (fix_aspect_values_spec s df rows Hs) as (_ & _ & H).
  assert (Hfirst : first_tag_missing rows = false).
  { destruct Hclean as [|r rows Hr _]; [done|]. simpl. by destruct (Tag r). }
  rewrite Hfirst in H. destruct H as (df' & Hres & _ & Hout).
  eexists _, _. split; [exact Hres|]. split; [exact Hout|].
  simpl. by rewrite merge_all_clean, app_nil_r.
Qed.

(** Claim C9, as amended.  After a call the caller's table holds
    [caller_rows rows]: if some row other than the first has no tag, the
    token of the row before the last such row has that row's token glued on,
    and no other cell differs; with tags on all rows but possibly the first
    nothing is written.  Every other table of the store is as it was. *)
Theorem merge_caller_table (s : Store) (df : loc) (rows : list Row) :
  s !! df = Some (tagged_frame rows) ->
  fst (fix_aspect_values df s) !! df = Some (tagged_frame (caller_rows rows)) /\
  map (set_Token "") (caller_rows rows) = map (set_Token "") rows /\
  (Forall (fun r => isna (Tag r) = false) (tail rows) ->
   fst (fix_aspect_values df s) !! df = s !! df) /\
  (forall l f, l ≠ df -> s !! l = Some f ->
     fst (fix_aspect_values df s) !! l = Some f).
Proof.
  intros Hs. destruct (fix_aspect_values_spec s df rows Hs) as (Hfr & Hcur & _).
  split; [done|]. split; [apply caller_rows_cells|]. split; [|done].
  intros Hclean. by rewrite Hcur, Hs, caller_rows_clean.
Qed.

Lemma merge_fails_only_on_first_row_witness :
  store_of two_records !! 1%positive = Some (tagged_frame two_records) /\
  ((first_tag_missing two_records = true ->
    snd (fix_aspect_values 1%positive (store_of two_records))
    = Raise (KeyError (KLabel (-1)))) /\
   (first_tag_missing two_records = false ->
    exists df',
      snd (fix_aspect_values 1%positive (store_of two_records)) = Ok df' /\
      fst (fix_aspect_values 1%positive (store_of two_records)) !! df' =
        Some {| columns := merged_columns;
                body := enumerate (spans two_records) |})).
Proof.
  split; [reflexivity|].
  apply (merge_fails_only_on_first_row (store_of two_records) 1%positive two_records).
  reflexivity.
Defined.

(** Claim C2 as stated fails: the fragment "Inc" opens record 2, and the call
    returns with "Inc" glued onto the last row of record 1. *)
Lemma merge_across_records :
  orphan_fragment None two_records = true /\
  exists df',
    snd (fix_aspect_values 1%positive (store_of two_records)) = Ok df' /\
    fst (fix_aspect_values 1%positive (store_of two_records)) !! df' =
      Some {| columns := merged_columns;
              body := [(0, mkRow 1 "Apple" "Apple Inc" (Some "Brand"));
                       (1, mkRow 2 "Inc phone" "phone" (Some "O"))] |}.
Proof. split; [reflexivity|]. exists 3%positive. split; vm_compute; reflexivity. Qed.

Lemma merge_count_witness :
  store_of apple_inc !! 1%positive = Some (tagged_frame apple_inc) /\
  match snd (fix_aspect_values 1%positive (store_of apple_inc)) with
  | Ok df' =>
      exists f,
        fst (fix_aspect_values 1%positive (store_of apple_inc)) !! df' = Some f /\
        length (body f) = count_tagged apple_inc
  | Raise _ => first_tag_missing apple_inc = true
  end.
Proof.
  split; [reflexivity|].
  apply (merge_count (store_of apple_inc) 1%positive apple_inc). reflexivity.
Defined.


Lemma merge_concatenation_witness :
  store_of apple_inc_pair !! 1%positive = Some (tagged_frame apple_inc_pair) /\
  first_tag_missing apple_inc_pair = false /\
  exists df' out,
    snd (fix_aspect_values 1%positive (store_of apple_inc_pair)) = Ok df' /\
    fst (fix_aspect_values 1%positive (store_of apple_inc_pair)) !! df' =
      Some {| columns := merged_columns; body := enumerate out |} /\
    out = spans apple_inc_pair /\
    (forall n t1 t2,
       apple_inc_pair =
         [mkRow n t1 "Apple" (Some "Brand"); mkRow n t2 "Inc" None] ->
       out = [mkRow n t1 "Apple Inc" (Some "Brand")]).
Proof.
  split; [reflexivity|]. split; [reflexivity|].
  apply (merge_concatenation (store_of apple_inc_pair) 1%positive apple_inc_pair);
    reflexivity.
Defined.

Lemma merge_clean_identity_witness :
  store_of clean_rows !! 1%positive = Some (tagged_frame clean_rows) /\
  Forall (fun r => Tag r ≠ None) clean_rows /\
  exists df' f,
    snd (fix_aspect_values 1%positive (store_of clean_rows)) = Ok df' /\
    fst (fix_aspect_values 1%positive (store_of clean_rows)) !! df' = Some f /\
    body f = body (tagged_frame clean_rows).
Proof.
  assert (Hclean : Forall (fun r => Tag r ≠ None) clean_rows)
    by (repeat constructor; simpl; congruence).
  split; [reflexivity|]. split; [exact Hclean|].
  apply (merge_clean_identity (store_of clean_rows) 1%positive clean_rows);
    [reflexivity | exact Hclean].
Defined.

Lemma merge_caller_table_witness :
  store_of apple_inc !! 1%positive = Some (tagged_frame apple_inc) /\
  (fst (fix_aspect_values 1%positive (store_of apple_inc)) !! 1%positive
     = Some (tagged_frame (caller_rows apple_inc)) /\
   map (set_Token "") (caller_rows apple_inc) = map (set_Token "") apple_inc /\
   (Forall (fun r => isna (Tag r) = false) (tail apple_inc) ->
    fst (fix_aspect_values 1%positive (store_of apple_inc)) !! 1%positive
    = store_of apple_inc !! 1%positive) /\
   (forall l f, l ≠ 1%positive -> store_of apple_inc !! l = Some f ->
      fst (fix_aspect_values 1%positive (store_of apple_inc)) !! l = Some f)).
Proof.
  split; [reflexivity|].
  apply (merge_caller_table (store_of apple_inc) 1%positive apple_inc).
  reflexivity.
Defined.

(** Claim C9 as stated fails: after the call the caller's table reads
    "Apple Inc" where it read "Apple". *)
Lemma merge_writes_input :
  fst (fix_aspect_values 1%positive (store_of apple_inc)) !! 1%positive =
    Some (tagged_frame
            [mkRow 1 "Apple Inc phone" "Apple Inc" (Some "Brand");
             mkRow 1 "Apple Inc phone" "Inc" None;
             mkRow 1 "Apple Inc phone" "phone" (Some "O")]) /\
  fst (fix_aspect_values 1%positive (store_of apple_inc)) !! 1%positive ≠
    store_of apple_inc !! 1%positive.
Proof.
  assert (H : fst (fix_aspect_values 1%positive (store_of apple_inc)) !! 1%positive =
    Some (tagged_frame
            [mkRow 1 "Apple Inc phone" "Apple Inc" (Some "Brand");
             mkRow 1 "Apple Inc phone" "Inc" None;
             mkRow 1 "Apple Inc phone" "phone" (Some "O")]))
    by (vm_compute; reflexivity).
  split; [exact H|]. rewrite H. vm_compute. congruence.
Qed.

End MergerFacts.

Module EncoderFacts.
Import Encoder.

(** ** The inner loop *)

Lemma label_step_labels (st : State) (label : string) :
  converted_labels (label_step st label) =
  converted_labels st ++
    converted_labels
      (label_step {| converted_labels := []; previous_label := previous_label st |}
         label).
Proof. unfold label_step. by destruct (String.eqb label "O"). Qed.

Lemma label_step_previous (st : State) (label : string) :
  previous_label (label_step st label) =
  if String.eqb label "O" then "O" else "I-" +:+ label.
Proof. unfold label_step. by destruct (String.eqb label "O"). Qed.

Lemma fold_label_step (names : list string) (st : State) :
  converted_labels (fold_left label_step names st) =
  converted_labels st ++ labels_from (previous_label st) names.
Proof.
  unfold labels_from. revert st.
  induction names as [|label names IH]; intros st; simpl.
  - by rewrite app_nil_r.
  - rewrite IH, label_step_labels, <- app_assoc. f_equal.
    rewrite (IH (label_step _ label)).
    by rewrite !label_step_previous.
Qed.

Lemma labels_from_cons (previous label : string) (names : list string) :
  labels_from previous (label :: names) =
  (if String.eqb label "O" then "O"
   else if negb (String.eqb label (str_replace "I-" "" previous))
        then "B-" +:+ label else "I-" +:+ label)
  :: labels_from (if String.eqb label "O" then "O" else "I-" +:+ label) names.
Proof.
  unfold labels_from at 1. simpl fold_left. rewrite fold_label_step.
  rewrite label_step_previous. unfold label_step. simpl.
  by destruct (String.eqb label "O").
Qed.

Lemma length_labels_from (previous : string) (names : list string) :
  length (labels_from previous names) = length names.
Proof.
  revert previous. induction names as [|label names IH]; intros previous; [done|].
  rewrite labels_from_cons. simpl. by rewrite IH.
Qed.

Lemma convert_group_labels (labels : list string) (group : list Row) :
  convert_group labels group =
  labels ++ labels_from "O" (map Aspect_Name group).
Proof. unfold convert_group. by rewrite fold_label_step. Qed.

(** ** The outer loop *)

Lemma fold_convert_group (groups : list (Z * list Row)) (labels : list string) :
  fold_left (fun labels g => convert_group labels (snd g)) groups labels =
  labels ++ concat (map (fun g => convert_group [] (snd g)) groups).
Proof.
  revert labels. induction groups as [|g groups IH]; intros labels; simpl.
  - by rewrite app_nil_r.
  - rewrite IH, (convert_group_labels labels), (convert_group_labels []).
    by rewrite <- app_assoc.
Qed.

Lemma convert_to_iob_groups (df : list Row) :
  convert_to_iob df =
  concat (map (fun g => convert_group [] (snd g)) (groupby df)).
Proof. unfold convert_to_iob. by rewrite fold_convert_group. Qed.

Lemma length_convert_groups (groups : list (Z * list Row)) :
  length (concat (map (fun g => convert_group [] (snd g)) groups)) =
  total_rows groups.
Proof.
  unfold total_rows. induction groups as [|g groups IH]; [done|].
  simpl. rewrite !length_app, IH, convert_group_labels. simpl.
  by rewrite length_labels_from, length_map.
Qed.

(** ** Grouping *)

Lemma groupby_snoc (df : list Row) (r : Row) :
  groupby (df ++ [r]) = add_to_group (Record_Number r) r (groupby df).
Proof. unfold groupby. by rewrite fold_left_app. Qed.

Lemma total_rows_add (k : Z) (r : Row) (groups : list (Z * list Row)) :
  total_rows (add_to_group k r groups) = S (total_rows groups).
Proof.
  unfold total_rows. induction groups as [|[k' g] groups IH]; [done|].
  simpl. destruct (k <? k'); [done|]. destruct (k =? k'); simpl.
  - rewrite !length_app. simpl. lia.
  - rewrite !length_app, IH. lia.
Qed.

Lemma total_rows_groupby (df : list Row) :
  total_rows (groupby df) = length df.
Proof.
  induction df as [|r df IH] using rev_ind; [done|].
  rewrite groupby_snoc, total_rows_add, IH, length_app. simpl. lia.
Qed.

Lemma add_to_group_keys (k : Z) (r : Row) (groups : list (Z * list Row)) (k' : Z) :
  k' ∈ map fst (add_to_group k r groups) <-> k' = k \/ k' ∈ map fst groups.
Proof.
  induction groups as [|[k0 g0] groups IH]; simpl.
  - rewrite list_elem_of_singleton, elem_of_nil. tauto.
  - destruct (Z.ltb_spec k k0); [simpl; rewrite !elem_of_cons; tauto|].
    destruct (Z.eqb_spec k k0); simpl.
    + subst. rewrite !elem_of_cons. tauto.
    + rewrite !elem_of_cons, IH. tauto.
Qed.

Lemma add_to_group_sorted (k : Z) (r : Row) (groups : list (Z * list Row)) :
  StronglySorted Z.lt (map fst groups) ->
  StronglySorted Z.lt (map fst (add_to_group k r groups)).
Proof.
  induction groups as [|[k0 g0] groups IH]; simpl; intros Hs.
  - repeat constructor.
  - apply StronglySorted_inv in Hs as [Hs Hall].
    destruct (Z.ltb_spec k k0).
    + simpl. constructor; [by constructor|].
      constructor; [done|]. eapply Forall_impl; [exact Hall|]. simpl. lia.
    + destruct (Z.eqb_spec k k0); simpl.
      * by constructor.
      * constructor; [by apply IH|].
        apply Forall_forall. intros k' Hk'.
        apply add_to_group_keys in Hk' as [->|Hk']; [lia|].
        rewrite Forall_forall in Hall. by apply Hall.
Qed.

Lemma add_to_group_elem (k : Z) (r : Row) (groups : list (Z * list Row))
    (k' : Z) (g' : list Row) :
  StronglySorted Z.lt (map fst groups) ->
  (k', g') ∈ add_to_group k r groups ->
  (k' ≠ k /\ (k', g') ∈ groups) \/
  (k' = k /\ exists g, g' = g ++ [r] /\
     ((k, g) ∈ groups \/ (g = [] /\ k ∉ map fst groups))).
Proof.
  induction groups as [|[k0 g0] groups IH]; simpl; intros Hs Hin.
  - apply list_elem_of_singleton in Hin. injection Hin as -> ->.
    right. split; [done|]. exists []. split; [done|]. right.
    split; [done | apply not_elem_of_nil].
  - apply StronglySorted_inv in Hs as [Hs Hall].
    rewrite Forall_forall in Hall.
    assert (Hlater : forall g, (k', g) ∈ groups -> k0 < k').
    { intros g Hg. apply Hall. apply list_elem_of_fmap. by exists (k', g). }
    destruct (Z.ltb_spec k k0).
    + apply elem_of_cons in Hin as [Hin|Hin].
      * injection Hin as -> ->. right. split; [done|]. exists [].
        split; [done|]. right. split; [done|].
        change (k ∉ k0 :: map fst groups). rewrite not_elem_of_cons.
        split; [lia|]. intros Hk. apply Hall in Hk. lia.
      * left. split; [|done].
        apply elem_of_cons in Hin as [Hin|Hin].
        -- injection Hin as -> ->. lia.
        -- apply Hlater in Hin. lia.
    + destruct (Z.eqb_spec k k0).
      * subst k0. apply elem_of_cons in Hin as [Hin|Hin].
        -- injection Hin as -> ->. right. split; [done|]. exists g0.
           split; [done|]. left. by left.
        -- left. split; [apply Hlater in Hin; lia | by right].
      * apply elem_of_cons in Hin as [Hin|Hin].
        -- injection Hin as -> ->. left. split; [lia | by left].
        -- destruct (IH Hs Hin) as [[Hne Hg]|(-> & g & -> & [Hg|[-> Hg]])].
           ++ left. split; [done | by right].
           ++ right. split; [done|]. exists g. split; [done|]. left. by right.
           ++ right. split; [done|]. exists []. split; [done|]. right.
              split; [done|]. change (k ∉ k0 :: map fst groups).
              rewrite not_elem_of_cons. split; [lia | done].
Qed.

Lemma groupby_sorted (df : list Row) :
  StronglySorted Z.lt (map fst (groupby df)).
Proof.
  induction df as [|r df IH] using rev_ind; [constructor|].
  rewrite groupby_snoc. by apply add_to_group_sorted.
Qed.

Lemma groupby_keys (df : list Row) (k : Z) :
  k ∈ map fst (groupby df) <-> k ∈ map Record_Number df.
Proof.
  induction df as [|r df IH] using rev_ind; [done|].
  rewrite groupby_snoc, add_to_group_keys, IH, map_app. simpl.
  rewrite elem_of_app, list_elem_of_singleton. tauto.
Qed.

Lemma groupby_group (df : list Row) (k : Z) (g : list Row) :
  (k, g) ∈ groupby df ->
  g = filter (fun r => Record_Number r = k) df.
Proof.
  revert k g. induction df as [|r df IH] using rev_ind; intros k g Hin.
  - by apply elem_of_nil in Hin.
  - rewrite groupby_snoc in Hin. rewrite filter_app.
    apply add_to_group_elem in Hin; [|apply groupby_sorted].
    destruct Hin as [[Hne Hg]|(-> & g0 & -> & [Hg|[-> Hg]])].
    + rewrite filter_cons_False by congruence.
      rewrite filter_nil, app_nil_r. by apply IH.
    + rewrite filter_cons_True by done. rewrite filter_nil. f_equal. by apply IH.
    + rewrite filter_cons_True by done. rewrite filter_nil. f_equal.
      symmetry. apply elem_of_nil_inv. intros x Hx.
      apply list_elem_of_filter in Hx as [Hkx Hx].
      apply Hg, groupby_keys. apply list_elem_of_fmap. by exists x.
Qed.


(** ** Cells the encoder does not read *)

Lemma add_to_group_erase (k : Z) (r : Row) (groups : list (Z * list Row)) :
  add_to_group k (erase r) (map (fun g => (fst g, map erase (snd g))) groups) =
  map (fun g => (fst g, map erase (snd g))) (add_to_group k r groups).
Proof.
  induction groups as [|[k0 g0] groups IH]; [done|]. simpl.
  destruct (k <? k0); [done|]. destruct (k =? k0); simpl.
  - by rewrite map_app.
  - by rewrite IH.
Qed.

Lemma groupby_erase (df : list Row) :
  groupby (map erase df) =
  map (fun g => (fst g, map erase (snd g))) (groupby df).
Proof.
  induction df as [|r df IH] using rev_ind; [done|].
  rewrite map_app. change (map erase [r]) with [erase r].
  rewrite !groupby_snoc, IH. apply add_to_group_erase.
Qed.

Lemma convert_group_erase (labels : list string) (group : list Row) :
  convert_group labels (map erase group) = convert_group labels group.
Proof. unfold convert_group. by rewrite map_map. Qed.

Lemma convert_to_iob_erase (df : list Row) :
  convert_to_iob (map erase df) = convert_to_iob df.
Proof.
  rewrite !convert_to_iob_groups, groupby_erase, map_map. simpl.
  f_equal. apply map_ext. intros g. apply convert_group_erase.
Qed.

Lemma erase_key_label (df : list Row) :
  map erase df =
  map (fun p => {| Record_Number := fst p; Title := ""; Aspect_Value := "";
                   Aspect_Name := snd p |})
      (map key_label df).
Proof. by rewrite map_map. Qed.

(** ** The comparison with the previous label *)

Lemma replace_I_prefix (s : string) :
  str_replace "I-" "" ("I-" +:+ s) = str_replace "I-" "" s.
Proof. by destruct s. Qed.

Lemma replace_no_occurrence (s : string) :
  occurs "I-" s = false -> str_replace "I-" "" s = s.
Proof.
  unfold str_replace. induction s as [|c s IH]; [done|].
  intros Hocc. change (occurs "I-" (String c s))
    with (String.prefix "I-" (String c s) || occurs "I-" s) in Hocc.
  apply orb_false_iff in Hocc as [Hhere Hlater].
  change (replace_from "I-" "" 0 (String c s))
    with (if String.prefix "I-" (String c s)
          then "" +:+ replace_from "I-" "" 1 s
          else String c (replace_from "I-" "" 0 s)).
  rewrite Hhere. f_equal. by apply IH.
Qed.

Lemma replace_is_strip (previous : string) :
  plain_previous previous ->
  str_replace "I-" "" previous = strip_I_prefix previous.
Proof.
  intros [->|(name & -> & Hname)]; [done|].
  rewrite replace_I_prefix. by apply replace_no_occurrence.
Qed.

Lemma labels_from_spec (names : list string) (previous : string) :
  Forall (fun name => occurs "I-" name = false) names ->
  plain_previous previous ->
  labels_from previous names = spec_labels previous names.
Proof.
  intros Hnames. revert previous.
  induction Hnames as [|label names Hlabel _ IH]; intros previous Hprev; [done|].
  rewrite labels_from_cons. simpl spec_labels.
  rewrite replace_is_strip by done.
  rewrite (String.eqb_sym label (strip_I_prefix previous)).
  destruct (String.eqb label "O").
  - f_equal. apply IH. by left.
  - assert (Hnext : plain_previous ("I-" +:+ label)) by (right; eauto).
    destruct (String.eqb (strip_I_prefix previous) label); simpl; f_equal;
      by apply IH.
Qed.

(** Property X16.
    Where no aspect name contains "I-" the function is the state machine of
    the specification, run on every group. *)
Lemma convert_to_iob_spec (df : list Row) :
  Forall (fun r => occurs "I-" (Aspect_Name r) = false) df ->
  convert_to_iob df =
  concat (map (fun g => spec_labels "O" (map Aspect_Name (snd g))) (groupby df)).
Proof.
  intros Hdf. rewrite convert_to_iob_groups. f_equal.
  apply map_ext_in. intros [k g] Hg%list_elem_of_In. simpl.
  rewrite convert_group_labels. simpl. apply labels_from_spec; [|by left].
  apply groupby_group in Hg. subst g.
  apply Forall_fmap, Forall_forall. intros r Hr%list_elem_of_filter.
  rewrite Forall_forall in Hdf. apply Hdf. tauto.
Qed.

(** ** Properties of [convert_to_iob] *)

(** Claim C1, at the input on which it fails.  Two rows of one record with
    the aspect name "WI-FI": the function starts a second span where the
    state machine of the specification continues the first.  On the boundary
    scenario of the claim both give the expected labels. *)
Theorem iob_repeated_name_with_I_dash :
  convert_to_iob wifi_rows = ["B-WI-FI"; "B-WI-FI"] /\
  spec_labels "O" (map Aspect_Name wifi_rows) = ["B-WI-FI"; "I-WI-FI"] /\
  convert_to_iob boundary_rows = ["O"; "B-Brand"; "I-Brand"; "O"; "B-Color"] /\
  spec_labels "O" (map Aspect_Name boundary_rows) =
    ["O"; "B-Brand"; "I-Brand"; "O"; "B-Color"].
Proof. repeat split; vm_compute; reflexivity. Qed.

(** Claim C3, at the input on which the code fails it.  The table holds a
    row of record 2 named "Brand" and then a row of record 1 named "O".
    Record 2 is met first, so groups in order of first appearance give
    "B-Brand", "O", label by label in the order of the rows; the function
    takes record 1 first and returns "O", "B-Brand", which is not the order
    of the rows of the table that its docstring promises. *)
Theorem groups_not_in_first_seen_order :
  map Aspect_Name later_record_first = ["Brand"; "O"] /\
  stable_group_order later_record_first = [2; 1] /\
  concat (map (fun k =>
                 spec_labels "O"
                   (map Aspect_Name
                      (filter (fun r => Record_Number r = k) later_record_first)))
              (stable_group_order later_record_first)) = ["B-Brand"; "O"] /\
  map fst (groupby later_record_first) = [1; 2] /\
  map fst (groupby later_record_first) ≠ stable_group_order later_record_first /\
  convert_to_iob later_record_first = ["O"; "B-Brand"].
Proof. repeat split; try (vm_compute; reflexivity). vm_compute. congruence. Qed.

(** What the grouping does on every table: the groups come in ascending
    order of the record number, one for every record number of the table; a
    group holds the rows of its record in the order of the table, and the
    output is the labels of the groups in that order. *)
Lemma groups_in_key_order (df : list Row) :
  StronglySorted Z.lt (map fst (groupby df)) /\
  (forall k, k ∈ map fst (groupby df) <-> k ∈ map Record_Number df) /\
  (forall k g, (k, g) ∈ groupby df ->
     g = filter (fun r => Record_Number r = k) df) /\
  convert_to_iob df =
    concat (map (fun g => convert_group [] (snd g)) (groupby df)).
Proof.
  split; [apply groupby_sorted|]. split; [apply groupby_keys|].
  split; [apply groupby_group | apply convert_to_iob_groups].
Qed.

(** Claim C6.  One label for every row. *)
Theorem iob_alignment (df : list Row) :
  length (convert_to_iob df) = length df.
Proof.
  by rewrite convert_to_iob_groups, length_convert_groups, total_rows_groupby.
Qed.

(** Claim C7.  Every group is encoded from the outside state: the output is
    the labels of the groups, each computed on its own; whatever was emitted
    before, the first row of a group gets "O" or "B-" and its name; and
    [Brand, Brand] in record 1 followed by [Brand] in record 2 gives
    B-Brand, I-Brand, B-Brand. *)
Theorem group_reset (df : list Row) :
  convert_to_iob df =
    concat (map (fun g => convert_group [] (snd g)) (groupby df)) /\
  (forall labels r group,
     exists rest,
       convert_group labels (r :: group) =
       labels ++
         (if String.eqb (Aspect_Name r) "O" then "O"
          else "B-" +:+ Aspect_Name r) :: rest) /\
  convert_to_iob two_groups = ["B-Brand"; "I-Brand"; "B-Brand"].
Proof.
  split; [apply convert_to_iob_groups|]. split; [|by vm_compute].
  intros labels r group. rewrite convert_group_labels. simpl map.
  rewrite labels_from_cons. eexists. do 2 f_equal.
  destruct (String.eqb_spec (Aspect_Name r) "O") as [|Hne]; [done|].
  change (str_replace "I-" "" "O") with "O".
  by apply String.eqb_neq in Hne as ->.
Qed.

(** Claim C10.  Tables that agree on record numbers and aspect names get the
    same labels. *)
Theorem iob_ignores_text (df1 df2 : list Row) :
  map key_label df1 = map key_label df2 ->
  convert_to_iob df1 = convert_to_iob df2.
Proof.
  intros Heq.
  rewrite <- (convert_to_iob_erase df1), <- (convert_to_iob_erase df2).
  by rewrite !erase_key_label, Heq.
Qed.

Lemma iob_ignores_text_witness :
  map key_label apple_red = map key_label other_text /\
  convert_to_iob apple_red = convert_to_iob other_text.
Proof.
  split; [reflexivity|].
  apply (iob_ignores_text apple_red other_text). reflexivity.
Defined.

End EncoderFacts.

(** * Further properties *)

Module MergerMore.
Import Merger MergerFacts.

(** ** The returned table *)

Lemma snd_enumerate (rows : list Row) : map snd (enumerate rows) = rows.
Proof.
  induction rows as [|r rows IH] using rev_ind; [done|].
  rewrite enumerate_snoc, map_app, IH. done.
Qed.

Lemma fst_enumerate (rows : list Row) :
  map fst (enumerate rows) = map Z.of_nat (seq 0 (length rows)).
Proof.
  induction rows as [|r rows IH] using rev_ind; [done|].
  rewrite enumerate_snoc, map_app, IH, length_app, seq_app, map_app. done.
Qed.

Lemma spans_tagged (rows : list Row) :
  Forall (fun r => Tag r ≠ None) (spans rows).
Proof.
  induction rows as [|r rows IH]; [constructor|]. simpl.
  destruct (Tag r) eqn:Ht; simpl; [|done].
  constructor; [simpl; congruence | done].
Qed.

Lemma spans_cells (rows : list Row) :
  map (set_Token "") (spans rows) =
  map (set_Token "") (filter (fun r => Tag r ≠ None) rows).
Proof.
  induction rows as [|r rows IH]; [done|]. simpl.
  destruct (Tag r) eqn:Ht; simpl.
  - rewrite filter_cons_True by congruence. simpl. by rewrite IH.
  - rewrite filter_cons_False by (rewrite Ht; tauto). done.
Qed.

(** What a successful call returns, in one place. *)
Lemma fix_aspect_values_returns (s : Store) (df : loc) (rows : list Row) :
  s !! df = Some (tagged_frame rows) ->
  first_tag_missing rows = false ->
  exists df',
    snd (fix_aspect_values df s) = Ok df' /\
    s !! df' = None /\
    fst (fix_aspect_values df s) !! df' =
      Some {| columns := merged_columns; body := enumerate (spans rows) |}.
Proof.
  intros Hs Hfirst.
  destruct (fix_aspect_values_spec s df rows Hs) as (_ & _ & H).
  rewrite Hfirst in H. destruct H as (df' & Hres & Hnew & Hout).
  exists df'. by rewrite <- merge_all_spans.
Qed.

(** Property X1.
    No row of the returned table is without a tag. *)
Theorem merge_output_tagged (s : Store) (df : loc) (rows : list Row) :
  s !! df = Some (tagged_frame rows) ->
  first_tag_missing rows = false ->
  exists df' f,
    snd (fix_aspect_values df s) = Ok df' /\
    fst (fix_aspect_values df s) !! df' = Some f /\
    Forall (fun p => Tag (snd p) ≠ None) (body f).
Proof.
  intros Hs Hfirst.
  destruct (fix_aspect_values_returns s df rows Hs Hfirst) as (df' & Hres & _ & Hout).
  eexists _, _. split; [exact Hres|]. split; [exact Hout|]. simpl.
  rewrite <- (Forall_fmap snd (fun r => Tag r ≠ None)).
  change (snd <$> enumerate (spans rows)) with (map snd (enumerate (spans rows))).
  rewrite snd_enumerate. apply spans_tagged.
Qed.

(** Property X2.
    The returned table carries the headers 'Aspect Value' and 'Aspect Name'
    in place of 'Token' and 'Tag', and its index is 0, 1, ..., n-1. *)
Theorem merge_output_shape (s : Store) (df : loc) (rows : list Row) :
  s !! df = Some (tagged_frame rows) ->
  first_tag_missing rows = false ->
  exists df' f,
    snd (fix_aspect_values df s) = Ok df' /\
    fst (fix_aspect_values df s) !! df' = Some f /\
    columns f = ["Record Number"; "Title"; "Aspect Value"; "Aspect Name"] /\
    map fst (body f) = map Z.of_nat (seq 0 (length (body f))).
Proof.
  intros Hs Hfirst.
  destruct (fix_aspect_values_returns s df rows Hs Hfirst) as (df' & Hres & _ & Hout).
  eexists _, _. split; [exact Hres|]. split; [exact Hout|]. split; [done|].
  simpl. by rewrite fst_enumerate, length_enumerate.
Qed.

(** Property X3.
    The rows of the returned table are the tagged rows of the input, in the
    order of the input; record number, title and tag of a row are as they
    were. *)
Theorem merge_survivors (s : Store) (df : loc) (rows : list Row) :
  s !! df = Some (tagged_frame rows) ->
  first_tag_missing rows = false ->
  exists df' f,
    snd (fix_aspect_values df s) = Ok df' /\
    fst (fix_aspect_values df s) !! df' = Some f /\
    map (fun p => set_Token "" (snd p)) (body f) =
    map (set_Token "") (filter (fun r => Tag r ≠ None) rows).
Proof.
  intros Hs Hfirst.
  destruct (fix_aspect_values_returns s df rows Hs Hfirst) as (df' & Hres & _ & Hout).
  eexists _, _. split; [exact Hres|]. split; [exact Hout|]. simpl.
  rewrite <- spans_cells.
  rewrite <- (snd_enumerate (spans rows)) at 2.
  by rewrite map_map.
Qed.

(** ** No text is lost *)

Lemma glue_concat (r : Row) (rows : list Row) :
  glue (r :: rows) = " " +:+ String.concat " " (map Token (r :: rows)).
Proof.
  revert r. induction rows as [|r' rows IH]; intros r.
  - simpl. by rewrite append_nil_r.
  - change (glue (r :: r' :: rows))
      with (" " +:+ (Token r +:+ glue (r' :: rows))).
    by rewrite IH.
Qed.

Lemma merge_step_glue (r : Row) (acc : string * list Row) :
  fst (merge_step r acc) +:+ glue (snd (merge_step r acc)) =
  " " +:+ (Token r +:+ (fst acc +:+ glue (snd acc))).
Proof.
  unfold merge_step. destruct (isna (Tag r)); simpl.
  - by rewrite !append_assoc.
  - by rewrite !append_assoc.
Qed.

Lemma merge_all_glue (rows : list Row) :
  fst (merge_all rows []) +:+ glue (snd (merge_all rows [])) = glue rows.
Proof.
  induction rows as [|r rows IH]; [done|].
  rewrite merge_all_cons, merge_step_glue, IH. done.
Qed.

Lemma spans_glue (rows : list Row) :
  first_tag_missing rows = false ->
  String.concat " " (map Token (spans rows)) =
  String.concat " " (map Token rows).
Proof.
  intros Hfirst. pose proof (merge_all_glue rows) as Hg.
  apply merge_all_fst with (kept := []) in Hfirst as Hfst.
  rewrite Hfst, merge_all_spans in Hg. simpl in Hg.
  destruct rows as [|r rows]; [done|].
  simpl in Hfirst. simpl spans in *. rewrite Hfirst in *.
  rewrite !glue_concat in Hg. by injection Hg.
Qed.

(** Property X4.
    Joined by single spaces, the tokens of the returned table read as the
    tokens of the input did: merging moves text between rows and neither
    drops nor reorders any. *)
Theorem merge_text_conserved (s : Store) (df : loc) (rows : list Row) :
  s !! df = Some (tagged_frame rows) ->
  first_tag_missing rows = false ->
  exists df' f,
    snd (fix_aspect_values df s) = Ok df' /\
    fst (fix_aspect_values df s) !! df' = Some f /\
    String.concat " " (map (fun p => Token (snd p)) (body f)) =
    String.concat " " (map Token rows).
Proof.
  intros Hs Hfirst.
  destruct (fix_aspect_values_returns s df rows Hs Hfirst) as (df' & Hres & _ & Hout).
  eexists _, _. split; [exact Hres|]. split; [exact Hout|]. simpl.
  rewrite <- (spans_glue rows Hfirst).
  rewrite <- (snd_enumerate (spans rows)) at 2.
  by rewrite map_map.
Qed.

(** Property X5.
    The table a call returns is a new one: its reference pointed to no table
    before the call, so it is neither the argument nor any other table the
    caller holds; the argument keeps its own headers. *)
Theorem merge_result_fresh (s : Store) (df df' : loc) (rows : list Row) :
  s !! df = Some (tagged_frame rows) ->
  snd (fix_aspect_values df s) = Ok df' ->
  s !! df' = None /\ df' ≠ df /\
  exists f, fst (fix_aspect_values df s) !! df = Some f /\
            columns f = ["Record Number"; "Title"; "Token"; "Tag"].
Proof.
  intros Hs Hres.
  destruct (fix_aspect_values_spec s df rows Hs) as (_ & Hcur & H).
  destruct (first_tag_missing rows); [congruence|].
  destruct H as (df'' & Hres' & Hnew & _).
  assert (df'' = df') as -> by congruence.
  split; [done|]. split; [congruence|]. eexists. split; [exact Hcur | done].
Qed.


(** ** Tables the function was not written for *)

Lemma fix_aspect_values_first_pass (s : Store) (df : loc) (f : DataFrame)
    (e : exn) :
  s !! df = Some f ->
  body f ≠ [] ->
  merge_row (Z.of_nat (length (body f)) - 1) df s = (s, Raise e) ->
  fix_aspect_values df s = (s, Raise e).
Proof.
  intros Hs Hne Hrow. unfold fix_aspect_values.
  rewrite run_bind, (run_len _ _ _ Hs), run_bind.
  destruct (body f) as [|p b] eqn:Hb; [done|].
  change (length (p :: b)) with (S (length b)) in *.
  rewrite range_down_S. simpl for_each. rewrite run_bind.
  replace (Z.of_nat (S (length b)) - 1) with (Z.of_nat (length b)) in Hrow by lia.
  by rewrite Hrow.
Qed.

Lemma column_position_absent (c : string) (cols : list string) :
  c ∉ cols -> column_position c cols = None.
Proof.
  induction cols as [|c' cols IH]; [done|].
  intros [Hne Hc]%not_elem_of_cons. simpl.
  apply String.eqb_neq in Hne as ->. by rewrite IH.
Qed.

Lemma fix_aspect_values_no_Tag (s : Store) (df : loc) (f : DataFrame) :
  s !! df = Some f ->
  body f ≠ [] ->
  column_position "Tag" (columns f) = None ->
  fix_aspect_values df s = (s, Raise (KeyError (KColumn "Tag"))).
Proof.
  intros Hs Hne Hcol. apply (fix_aspect_values_first_pass s df f); [done..|].
  unfold merge_row, loc_Tag, loc_get.
  rewrite !run_bind, (run_read _ _ _ Hs). rewrite decide_False; [done|].
  by rewrite Hcol.
Qed.

(** Property X6.
    A table with at least one row, the index 0..n-1 and no 'Tag' header
    among its headers makes the call raise KeyError 'Tag' on the first pass
    of the loop; the store is as it was. *)
Theorem merge_without_Tag_header (s : Store) (df : loc)
    (cols : list string) (rows : list Row) :
  s !! df = Some {| columns := cols; body := enumerate rows |} ->
  rows ≠ [] ->
  "Tag" ∉ cols ->
  fix_aspect_values df s = (s, Raise (KeyError (KColumn "Tag"))).
Proof.
  intros Hs Hne Hcol.
  apply (fix_aspect_values_no_Tag s df _ Hs); simpl.
  - by destruct rows.
  - by apply column_position_absent.
Qed.

(** Property X7.
    The function cannot be applied to its own result: on the table it
    returned for a non-empty input the second call raises KeyError 'Tag',
    the headers having been renamed by the first. *)
Theorem merge_twice_raises (s : Store) (df : loc) (rows : list Row) :
  s !! df = Some (tagged_frame rows) ->
  rows ≠ [] ->
  first_tag_missing rows = false ->
  exists df',
    snd (fix_aspect_values df s) = Ok df' /\
    fix_aspect_values df' (fst (fix_aspect_values df s)) =
      (fst (fix_aspect_values df s), Raise (KeyError (KColumn "Tag"))).
Proof.
  intros Hs Hne Hfirst.
  destruct (fix_aspect_values_returns s df rows Hs Hfirst) as (df' & Hres & _ & Hout).
  exists df'. split; [done|].
  apply (fix_aspect_values_no_Tag _ _ _ Hout); [|done].
  destruct rows as [|r rows]; [done|]. simpl in Hfirst. simpl.
  by rewrite Hfirst.
Qed.

(** Property X8.
    The index is read by label: when the label n-1 of a table with n rows is
    not in its index, as after rows were filtered out without a reset, the
    call raises KeyError n-1 on the first pass and the store is as it was. *)
Theorem merge_index_gap (s : Store) (df : loc) (f : DataFrame) :
  s !! df = Some f ->
  columns f = tagged_columns ->
  body f ≠ [] ->
  row_at (Z.of_nat (length (body f)) - 1) (body f) = None ->
  fix_aspect_values df s =
    (s, Raise (KeyError (KLabel (Z.of_nat (length (body f)) - 1)))).
Proof.
  intros Hs Hcol Hne Hrow. apply (fix_aspect_values_first_pass s df f); [done..|].
  unfold merge_row, loc_Tag.
  rewrite run_bind, (run_loc_get _ _ _ Hs) by (by rewrite Hcol).
  by rewrite Hrow.
Qed.

(** Property X9.
    On a table without rows the loop body never runs, so no header and no
    label is looked up: whatever the headers, the call returns a new table
    without rows, its headers renamed, and writes nothing else. *)
Theorem merge_empty (s : Store) (df : loc) (cols : list string) :
  s !! df = Some {| columns := cols; body := [] |} ->
  fix_aspect_values df s =
    (<[fresh (dom s) :=
         {| columns :=
              map (rename_header [("Token", "Aspect Value"); ("Tag", "Aspect Name")])
                  cols;
            body := [] |}]> s,
     Ok (fresh (dom s))).
Proof.
  intros Hs. unfold fix_aspect_values.
  rewrite run_bind, (run_len _ _ _ Hs), run_bind. simpl body.
  change (Z.of_nat (length [])) with (Z.of_nat 0). rewrite range_down_0.
  simpl for_each. unfold mret at 1, M_ret at 1. cbv iota beta.
  rewrite run_bind, (run_reset_index _ _ _ Hs), run_bind. simpl.
  erewrite run_rename by apply lookup_insert_eq.
  simpl. by rewrite insert_insert_eq.
Qed.

(** ** Witnesses *)

Lemma merge_output_tagged_witness :
  store_of apple_inc !! 1%positive = Some (tagged_frame apple_inc) /\
  first_tag_missing apple_inc = false /\
  exists df' f,
    snd (fix_aspect_values 1%positive (store_of apple_inc)) = Ok df' /\
    fst (fix_aspect_values 1%positive (store_of apple_inc)) !! df' = Some f /\
    Forall (fun p => Tag (snd p) ≠ None) (body f).
Proof.
  split; [reflexivity|]. split; [reflexivity|].
  apply (merge_output_tagged (store_of apple_inc) 1%positive apple_inc);
    reflexivity.
Defined.

Lemma merge_output_shape_witness :
  store_of apple_inc !! 1%positive = Some (tagged_frame apple_inc) /\
  first_tag_missing apple_inc = false /\
  exists df' f,
    snd (fix_aspect_values 1%positive (store_of apple_inc)) = Ok df' /\
    fst (fix_aspect_values 1%positive (store_of apple_inc)) !! df' = Some f /\
    columns f = ["Record Number"; "Title"; "Aspect Value"; "Aspect Name"] /\
    map fst (body f) = map Z.of_nat (seq 0 (length (body f))).
Proof.
  split; [reflexivity|]. split; [reflexivity|].
  apply (merge_output_shape (store_of apple_inc) 1%positive apple_inc);
    reflexivity.
Defined.

Lemma merge_survivors_witness :
  store_of two_records !! 1%positive = Some (tagged_frame two_records) /\
  first_tag_missing two_records = false /\
  exists df' f,
    snd (fix_aspect_values 1%positive (store_of two_records)) = Ok df' /\
    fst (fix_aspect_values 1%positive (store_of two_records)) !! df' = Some f /\
    map (fun p => set_Token "" (snd p)) (body f) =
    map (set_Token "") (filter (fun r => Tag r ≠ None) two_records).
Proof.
  split; [reflexivity|]. split; [reflexivity|].
  apply (merge_survivors (store_of two_records) 1%positive two_records);
    reflexivity.
Defined.

Lemma merge_text_conserved_witness :
  store_of apple_inc !! 1%positive = Some (tagged_frame apple_inc) /\
  first_tag_missing apple_inc = false /\
  exists df' f,
    snd (fix_aspect_values 1%positive (store_of apple_inc)) = Ok df' /\
    fst (fix_aspect_values 1%positive (store_of apple_inc)) !! df' = Some f /\
    String.concat " " (map (fun p => Token (snd p)) (body f)) =
    String.concat " " (map Token apple_inc).
Proof.
  split; [reflexivity|]. split; [reflexivity|].
  apply (merge_text_conserved (store_of apple_inc) 1%positive apple_inc);
    reflexivity.
Defined.

Lemma merge_result_fresh_witness :
  store_of apple_inc !! 1%positive = Some (tagged_frame apple_inc) /\
  snd (fix_aspect_values 1%positive (store_of apple_inc)) = Ok 3%positive /\
  (store_of apple_inc !! 3%positive = None /\ 3%positive ≠ 1%positive /\
   exists f,
     fst (fix_aspect_values 1%positive (store_of apple_inc)) !! 1%positive = Some f /\
     columns f = ["Record Number"; "Title"; "Token"; "Tag"]).
Proof.
  split; [reflexivity|]. split; [vm_compute; reflexivity|].
  apply (merge_result_fresh (store_of apple_inc) 1%positive 3%positive apple_inc);
    [reflexivity | vm_compute; reflexivity].
Defined.

Lemma merge_without_Tag_header_witness :
  ({[ 1%positive := {| columns := merged_columns; body := enumerate clean_rows |} ]}
     : Store) !! 1%positive
    = Some {| columns := merged_columns; body := enumerate clean_rows |} /\
  clean_rows ≠ [] /\
  ("Tag" ∉ merged_columns) /\
  fix_aspect_values 1%positive
    {[ 1%positive := {| columns := merged_columns; body := enumerate clean_rows |} ]}
  = ({[ 1%positive := {| columns := merged_columns; body := enumerate clean_rows |} ]},
     Raise (KeyError (KColumn "Tag"))).
Proof.
  assert (Hcols : "Tag" ∉ merged_columns).
  { unfold merged_columns. rewrite !not_elem_of_cons.
    repeat split; [discriminate..|apply not_elem_of_nil]. }
  split; [reflexivity|]. split; [discriminate|]. split; [exact Hcols|].
  apply (merge_without_Tag_header _ 1%positive merged_columns clean_rows);
    [reflexivity | discriminate | exact Hcols].
Defined.

Lemma merge_twice_raises_witness :
  store_of apple_inc !! 1%positive = Some (tagged_frame apple_inc) /\
  apple_inc ≠ [] /\
  first_tag_missing apple_inc = false /\
  exists df',
    snd (fix_aspect_values 1%positive (store_of apple_inc)) = Ok df' /\
    fix_aspect_values df' (fst (fix_aspect_values 1%positive (store_of apple_inc))) =
      (fst (fix_aspect_values 1%positive (store_of apple_inc)),
       Raise (KeyError (KColumn "Tag"))).
Proof.
  split; [reflexivity|]. split; [discriminate|]. split; [reflexivity|].
  apply (merge_twice_raises (store_of apple_inc) 1%positive apple_inc);
    [reflexivity | discriminate | reflexivity].
Defined.

Lemma merge_index_gap_witness :
  ({[ 1%positive := {| columns := tagged_columns; body := gapped_rows |} ]}
     : Store) !! 1%positive
    = Some {| columns := tagged_columns; body := gapped_rows |} /\
  tagged_columns = tagged_columns /\
  gapped_rows ≠ [] /\
  row_at (Z.of_nat (length gapped_rows) - 1) gapped_rows = None /\
  fix_aspect_values 1%positive
    {[ 1%positive := {| columns := tagged_columns; body := gapped_rows |} ]}
  = ({[ 1%positive := {| columns := tagged_columns; body := gapped_rows |} ]},
     Raise (KeyError (KLabel (Z.of_nat (length gapped_rows) - 1)))).
Proof.
  split; [reflexivity|]. split; [reflexivity|]. split; [discriminate|].
  split; [reflexivity|].
  apply (merge_index_gap _ 1%positive
           {| columns := tagged_columns; body := gapped_rows |});
    [reflexivity | reflexivity | discriminate | reflexivity].
Defined.

Lemma merge_empty_witness :
  ({[ 1%positive := {| columns := merged_columns; body := [] |} ]} : Store)
    !! 1%positive
    = Some {| columns := merged_columns; body := [] |} /\
  fix_aspect_values 1%positive
    {[ 1%positive := {| columns := merged_columns; body := [] |} ]}
  = (<[fresh (dom ({[ 1%positive := {| columns := merged_columns; body := [] |} ]}
                     : Store)) :=
         {| columns :=
              map (rename_header [("Token", "Aspect Value"); ("Tag", "Aspect Name")])
                  merged_columns;
            body := [] |}]>
       {[ 1%positive := {| columns := merged_columns; body := [] |} ]},
     Ok (fresh (dom ({[ 1%positive := {| columns := merged_columns; body := [] |} ]}
                       : Store)))).
Proof.
  split; [reflexivity|].
  apply (merge_empty _ 1%positive merged_columns). reflexivity.
Defined.

End MergerMore.

Module EncoderMore.
Import Encoder EncoderFacts.

(** ** The order of the output *)

Lemma flatten_add (k : Z) (r : Row) (groups : list (Z * list Row)) :
  flatten (add_to_group k r groups) ≡ₚ r :: flatten groups.
Proof.
  unfold flatten. induction groups as [|[k0 g0] groups IH]; [done|]. simpl.
  destruct (k <? k0); [done|]. destruct (k =? k0); simpl.
  - rewrite <- app_assoc. simpl. by rewrite <- Permutation_middle.
  - rewrite IH. by rewrite <- Permutation_middle.
Qed.

Lemma flatten_groupby_perm (df : list Row) : flatten (groupby df) ≡ₚ df.
Proof.
  induction df as [|r df IH] using rev_ind; [done|].
  rewrite groupby_snoc, flatten_add, IH. by rewrite Permutation_cons_append.
Qed.

Lemma groupby_group_key (df : list Row) (k : Z) (g : list Row) :
  (k, g) ∈ groupby df -> Forall (fun r => Record_Number r = k) g.
Proof.
  intros Hg%groupby_group. subst g. apply Forall_forall.
  by intros r [Hr _]%list_elem_of_filter.
Qed.

Lemma flatten_elem (groups : list (Z * list Row)) (r : Row) :
  r ∈ flatten groups -> exists k g, (k, g) ∈ groups /\ r ∈ g.
Proof.
  unfold flatten. induction groups as [|[k0 g0] groups IH]; simpl.
  - by intros ?%elem_of_nil.
  - intros [Hr|Hr]%elem_of_app.
    + exists k0, g0. split; [by left | done].
    + destruct (IH Hr) as (k & g & Hg & Hrg). exists k, g. split; [by right | done].
Qed.

Lemma flatten_sorted (groups : list (Z * list Row)) :
  StronglySorted Z.lt (map fst groups) ->
  (forall k g, (k, g) ∈ groups -> Forall (fun r => Record_Number r = k) g) ->
  StronglySorted Z.le (map Record_Number (flatten groups)).
Proof.
  induction groups as [|[k0 g0] groups IH]; intros Hs Hkeys; [constructor|].
  simpl in Hs. apply StronglySorted_inv in Hs as [Hs Hall].
  rewrite Forall_forall in Hall.
  assert (Hg0 : Forall (fun r => Record_Number r = k0) g0)
    by (apply Hkeys; by left).
  rewrite Forall_forall in Hg0.
  change (flatten ((k0, g0) :: groups)) with (g0 ++ flatten groups).
  rewrite map_app. apply StronglySorted_app_2.
  - intros x1 x2 (r1 & -> & Hr1)%list_elem_of_fmap (r2 & -> & Hr2)%list_elem_of_fmap.
    rewrite (Hg0 _ Hr1).
    apply flatten_elem in Hr2 as (k & g & Hg & Hr2).
    assert (Hk : Forall (fun r => Record_Number r = k) g)
      by (apply Hkeys; by right).
    rewrite Forall_forall in Hk. rewrite (Hk _ Hr2).
    assert (k0 < k); [|lia]. apply Hall. apply list_elem_of_fmap. by exists (k, g).
  - clear -Hg0. induction g0 as [|r g IHg]; [constructor|].
    simpl. constructor.
    + apply IHg. intros x Hx. apply Hg0. by right.
    + apply Forall_forall. intros x (r' & -> & Hr')%list_elem_of_fmap.
      rewrite (Hg0 r) by (by left). rewrite (Hg0 r') by (by right). lia.
  - apply IH; [done|]. intros k g Hg. apply Hkeys. by right.
Qed.

Lemma groupby_groups_are_filters (df : list Row) :
  map snd (groupby df) =
  map (fun k => filter (fun r => Record_Number r = k) df) (map fst (groupby df)).
Proof.
  rewrite map_map. apply map_ext_in. intros [k g] Hg%list_elem_of_In.
  simpl. by apply groupby_group.
Qed.

Lemma sorted_keys_NoDup (ks : list Z) : StronglySorted Z.lt ks -> NoDup ks.
Proof.
  induction 1 as [|k ks _ IH Hall]; [constructor|].
  apply NoDup_cons. split; [|done]. intros Hk.
  rewrite Forall_forall in Hall. apply Hall in Hk. lia.
Qed.

Lemma filter_filter_key (df : list Row) (k k' : Z) :
  filter (fun r => Record_Number r = k)
    (filter (fun r => Record_Number r = k') df) =
  if decide (k = k') then filter (fun r => Record_Number r = k) df else [].
Proof.
  destruct (decide (k = k')) as [->|Hne].
  - induction df as [|r df IH]; [done|].
    destruct (decide (Record_Number r = k')) as [Hr|Hr].
    + rewrite !(filter_cons_True _ r df) by done.
      rewrite filter_cons_True by done. by rewrite IH.
    + by rewrite !(filter_cons_False _ r df) by done.
  - induction df as [|r df IH]; [done|].
    destruct (decide (Record_Number r = k')) as [Hr|Hr].
    + rewrite (filter_cons_True _ r df) by done.
      by rewrite filter_cons_False by congruence.
    + by rewrite (filter_cons_False _ r df) by done.
Qed.

Lemma filter_concat_filters (df : list Row) (ks : list Z) (k : Z) :
  NoDup ks ->
  filter (fun r => Record_Number r = k)
    (concat (map (fun k' => filter (fun r => Record_Number r = k') df) ks)) =
  if decide (k ∈ ks) then filter (fun r => Record_Number r = k) df else [].
Proof.
  induction 1 as [|k0 ks Hk0 _ IH]; [done|].
  simpl. rewrite filter_app, filter_filter_key, IH.
  destruct (decide (k = k0)) as [->|Hne].
  - rewrite (decide_False (P := k0 ∈ ks)) by done.
    rewrite decide_True by (by left). apply app_nil_r.
  - simpl. destruct (decide (k ∈ ks)) as [Hk|Hk].
    + by rewrite decide_True by (by right).
    + rewrite decide_False; [done|]. by intros [?|?]%elem_of_cons.
Qed.

Lemma filter_flatten_groupby (df : list Row) (k : Z) :
  filter (fun r => Record_Number r = k) (flatten (groupby df)) =
  filter (fun r => Record_Number r = k) df.
Proof.
  unfold flatten. rewrite groupby_groups_are_filters.
  rewrite filter_concat_filters by apply sorted_keys_NoDup, groupby_sorted.
  destruct (decide (k ∈ map fst (groupby df))) as [Hk|Hk]; [done|].
  symmetry. apply elem_of_nil_inv. intros r [Hr Hin]%list_elem_of_filter.
  apply Hk, groupby_keys. apply list_elem_of_fmap. by exists r.
Qed.

Lemma labels_from_rows (previous : string) (group : list Row) :
  Forall2 label_of_row group (labels_from previous (map Aspect_Name group)).
Proof.
  revert previous. induction group as [|r group IH]; intros previous.
  - constructor.
  - simpl map. rewrite labels_from_cons. constructor; [|apply IH].
    unfold label_of_row. destruct (String.eqb (Aspect_Name r) "O"); [done|].
    destruct (negb _); [by left | by right].
Qed.

Lemma convert_to_iob_rows (df : list Row) :
  Forall2 label_of_row (flatten (groupby df)) (convert_to_iob df).
Proof.
  rewrite convert_to_iob_groups. unfold flatten.
  induction (groupby df) as [|g groups IH]; [constructor|].
  simpl. apply Forall2_app; [|exact IH].
  rewrite convert_group_labels. apply labels_from_rows.
Qed.

(** Property X10.
    The labels come in the order of the table sorted by record number, rows
    of one record staying in their order.  The rows in that order have
    non-decreasing record numbers, are a rearrangement of the table, and
    every record reads in them as it reads in the table; the output pairs
    with them row by row, every label being the label of its row: "O" for a
    row named "O", else "B-" or "I-" and the name of the row. *)
Theorem iob_order_is_stable_sort (df : list Row) :
  StronglySorted Z.le (map Record_Number (flatten (groupby df))) /\
  flatten (groupby df) ≡ₚ df /\
  (forall k,
     filter (fun r => Record_Number r = k) (flatten (groupby df)) =
     filter (fun r => Record_Number r = k) df) /\
  Forall2 label_of_row (flatten (groupby df)) (convert_to_iob df).
Proof.
  split; [|split; [|split]].
  - apply flatten_sorted; [apply groupby_sorted|].
    intros k g. apply groupby_group_key.
  - apply flatten_groupby_perm.
  - apply filter_flatten_groupby.
  - apply convert_to_iob_rows.
Qed.

(** ** Tables sorted by record number *)

Lemma flatten_add_last (k : Z) (r : Row) (groups : list (Z * list Row)) :
  StronglySorted Z.lt (map fst groups) ->
  Forall (fun k' => k' <= k) (map fst groups) ->
  flatten (add_to_group k r groups) = flatten groups ++ [r].
Proof.
  unfold flatten.
  induction groups as [|[k0 g0] groups IH]; intros Hs Hle; [done|].
  simpl in *. apply StronglySorted_inv in Hs as [Hs Hall].
  apply Forall_cons in Hle as [Hk0 Hle].
  destruct (Z.ltb_spec k k0); [lia|].
  destruct (Z.eqb_spec k k0) as [->|Hne]; simpl.
  - destruct groups as [|[k1 g1] groups].
    + simpl. by rewrite !app_nil_r.
    + apply Forall_cons in Hall as [Hlt _]. apply Forall_cons in Hle as [Hle1 _].
      simpl in *. lia.
  - rewrite IH by done. by rewrite app_assoc.
Qed.

Lemma flatten_groupby_sorted (df : list Row) :
  StronglySorted Z.le (map Record_Number df) ->
  flatten (groupby df) = df.
Proof.
  induction df as [|r df IH] using rev_ind; [done|].
  rewrite map_app. intros (Hle & Hs & _)%StronglySorted_app.
  rewrite groupby_snoc, flatten_add_last, IH; [done..|apply groupby_sorted|].
  apply Forall_forall. intros k Hk%groupby_keys.
  apply Hle; [done|]. simpl. by left.
Qed.

(** ** From labels back to aspect names *)

Lemma decode_labels_from (previous : string) (names : list string) :
  map decode_label (labels_from previous names) = names.
Proof.
  revert previous. induction names as [|name names IH]; intros previous; [done|].
  rewrite labels_from_cons. simpl map. rewrite IH. f_equal.
  destruct (String.eqb_spec name "O") as [->|Hne]; [done|].
  by destruct (negb _).
Qed.

Lemma decode_convert_to_iob (df : list Row) :
  map decode_label (convert_to_iob df) =
  map Aspect_Name (flatten (groupby df)).
Proof.
  rewrite convert_to_iob_groups. unfold flatten.
  rewrite !concat_map, !map_map. f_equal. apply map_ext. intros g.
  rewrite convert_group_labels. simpl. apply decode_labels_from.
Qed.

(** Property X11.
    Decoding the labels gives back the aspect names, in output order: the
    encoding loses no name, whatever the names are. *)
Theorem iob_round_trip (df : list Row) :
  map decode_label (convert_to_iob df) =
  map Aspect_Name (flatten (groupby df)).
Proof. apply decode_convert_to_iob. Qed.

(** Property X12.
    On a table whose record numbers never decrease the output is aligned
    with the table: the rows are emitted in table order, and the i-th label
    decodes to the aspect name of the i-th row. *)
Theorem iob_sorted_alignment (df : list Row) :
  StronglySorted Z.le (map Record_Number df) ->
  flatten (groupby df) = df /\
  map decode_label (convert_to_iob df) = map Aspect_Name df.
Proof.
  intros Hs. pose proof (flatten_groupby_sorted df Hs) as Hflat.
  split; [done|]. by rewrite decode_convert_to_iob, Hflat.
Qed.


(** ** Records do not influence each other *)

Lemma sorted_keys_unique (ks1 ks2 : list Z) :
  StronglySorted Z.lt ks1 -> StronglySorted Z.lt ks2 ->
  (forall k, k ∈ ks1 <-> k ∈ ks2) -> ks1 = ks2.
Proof.
  intros Hs1. revert ks2.
  induction Hs1 as [|a ks1 _ IH Ha]; intros ks2 Hs2 Hsame.
  - destruct ks2 as [|b ks2]; [done|].
    assert (b ∈ @nil Z) by (apply Hsame; by left). by apply elem_of_nil in H.
  - destruct Hs2 as [|b ks2 Hs2 Hb].
    { assert (a ∈ @nil Z) by (apply Hsame; by left). by apply elem_of_nil in H. }
    rewrite Forall_forall in Ha, Hb.
    assert (a = b) as ->.
    { assert (Hab : a ∈ b :: ks2) by (apply Hsame; by left).
      assert (Hba : b ∈ a :: ks1) by (apply Hsame; by left).
      apply elem_of_cons in Hab as [->|Hab]; [done|].
      apply elem_of_cons in Hba as [->|Hba]; [done|].
      apply Hb in Hab. apply Ha in Hba. lia. }
    f_equal. apply IH; [done|]. intros k. split; intros Hk.
    + assert (Hk' : k ∈ b :: ks2) by (apply Hsame; by right).
      apply elem_of_cons in Hk' as [->|Hk']; [|done]. apply Ha in Hk. lia.
    + assert (Hk' : k ∈ b :: ks1) by (apply Hsame; by right).
      apply elem_of_cons in Hk' as [->|Hk']; [|done]. apply Hb in Hk. lia.
Qed.

Lemma key_in_table (df : list Row) (k : Z) :
  k ∈ map Record_Number df <->
  filter (fun r => Record_Number r = k) df ≠ [].
Proof.
  split.
  - intros (r & -> & Hr)%list_elem_of_fmap Hnil.
    assert (Hin : r ∈ filter (fun r' => Record_Number r' = Record_Number r) df)
      by (by apply list_elem_of_filter).
    rewrite Hnil in Hin. by apply elem_of_nil in Hin.
  - intros Hne. destruct (filter _ df) as [|r l] eqn:Hf; [done|].
    assert (Hin : r ∈ filter (fun r => Record_Number r = k) df)
      by (rewrite Hf; by left).
    apply list_elem_of_filter in Hin as [<- Hin].
    apply list_elem_of_fmap. by exists r.
Qed.

Lemma groupby_per_record (df1 df2 : list Row) :
  (forall k, filter (fun r => Record_Number r = k) df1 =
             filter (fun r => Record_Number r = k) df2) ->
  groupby df1 = groupby df2.
Proof.
  intros Hsame.
  assert (Hkeys : map fst (groupby df1) = map fst (groupby df2)).
  { apply sorted_keys_unique; [apply groupby_sorted..|].
    intros k. by rewrite !groupby_keys, !key_in_table, Hsame. }
  assert (Hgroups : map snd (groupby df1) = map snd (groupby df2)).
  { rewrite !groupby_groups_are_filters, Hkeys. apply map_ext. intros k. apply Hsame. }
  rewrite <- (zip_fst_snd (groupby df1)), <- (zip_fst_snd (groupby df2)).
  change (@fmap list _ _ _ fst) with (@map (Z * list Row) _ fst).
  change (@fmap list _ _ _ snd) with (@map (Z * list Row) _ snd).
  by rewrite Hkeys, Hgroups.
Qed.

(** Property X13.
    The output depends on the table only through its records: two tables in
    which every record has the same rows in the same order get the same
    labels, however the records are interleaved. *)
Theorem iob_per_record (df1 df2 : list Row) :
  (forall k, filter (fun r => Record_Number r = k) df1 =
             filter (fun r => Record_Number r = k) df2) ->
  convert_to_iob df1 = convert_to_iob df2.
Proof.
  intros Hsame. unfold convert_to_iob. by rewrite (groupby_per_record df1 df2).
Qed.

Lemma add_to_group_after (k : Z) (r : Row) (groups1 groups2 : list (Z * list Row)) :
  Forall (fun k' => k' < k) (map fst groups1) ->
  add_to_group k r (groups1 ++ groups2) = groups1 ++ add_to_group k r groups2.
Proof.
  induction groups1 as [|[k0 g0] groups1 IH]; [done|]. simpl.
  intros [Hk0 Hlt]%Forall_cons.
  destruct (Z.ltb_spec k k0); [lia|].
  destruct (Z.eqb_spec k k0); [lia|]. by rewrite IH.
Qed.

Lemma groupby_app_separated (df1 df2 : list Row) :
  (forall r1 r2, r1 ∈ df1 -> r2 ∈ df2 -> Record_Number r1 < Record_Number r2) ->
  groupby (df1 ++ df2) = groupby df1 ++ groupby df2.
Proof.
  induction df2 as [|r df2 IH] using rev_ind; intros Hsep.
  - by rewrite !app_nil_r.
  - rewrite app_assoc, !groupby_snoc, IH.
    + apply add_to_group_after. apply Forall_forall.
      intros k (r1 & -> & Hr1)%groupby_keys%list_elem_of_fmap.
      apply Hsep; [done|]. apply elem_of_app. right. by left.
    + intros r1 r2 Hr1 Hr2. apply Hsep; [done|]. apply elem_of_app. by left.
Qed.

(** Property X14.
    Tables can be encoded in pieces: when every record number of the first
    table is below every record number of the second, the labels of the two
    tables one after the other are the labels of the first followed by the
    labels of the second. *)
Theorem iob_concat_separated (df1 df2 : list Row) :
  (forall r1 r2, r1 ∈ df1 -> r2 ∈ df2 -> Record_Number r1 < Record_Number r2) ->
  convert_to_iob (df1 ++ df2) = convert_to_iob df1 ++ convert_to_iob df2.
Proof.
  intros Hsep. rewrite !convert_to_iob_groups, groupby_app_separated by done.
  by rewrite map_app, concat_app.
Qed.

(** ** Spans *)

Lemma I_mark_inj (a b : string) : "I-" +:+ a = "I-" +:+ b -> a = b.
Proof. intros H. by injection H. Qed.

Lemma spans_well_formed_app (before : option (Z * string))
    (rows1 rows2 : list Row) (labels1 labels2 : list string) :
  spans_well_formed before rows1 labels1 ->
  (forall before', spans_well_formed before' rows2 labels2) ->
  spans_well_formed before (rows1 ++ rows2) (labels1 ++ labels2).
Proof.
  intros H1 H2. revert before labels1 H1.
  induction rows1 as [|r rows1 IH]; intros before [|l labels1] H1; simpl in *;
    [done | done | done |].
  destruct H1 as [Hl H1]. split; [done | by apply IH].
Qed.

Lemma labels_from_well_formed (k : Z) (group : list Row) (previous : string)
    (before : option (Z * string)) :
  Forall (fun r => Record_Number r = k) group ->
  Forall (fun r => occurs "I-" (Aspect_Name r) = false) group ->
  plain_previous previous ->
  (forall name, previous = "I-" +:+ name ->
     before = Some (k, "B-" +:+ name) \/ before = Some (k, "I-" +:+ name)) ->
  spans_well_formed before group (labels_from previous (map Aspect_Name group)).
Proof.
  intros Hkeys Hnames. revert previous before.
  induction group as [|r group IH]; intros previous before Hprev Hlink; [done|].
  apply Forall_cons in Hkeys as [Hk Hkeys].
  apply Forall_cons in Hnames as [Hlabel Hnames].
  simpl map. rewrite labels_from_cons, replace_is_strip by done.
  change (spans_well_formed before (r :: group) (?l :: ?ls))
    with ((forall name, l = "I-" +:+ name ->
             before = Some (Record_Number r, "B-" +:+ name) \/
             before = Some (Record_Number r, "I-" +:+ name)) /\
          spans_well_formed (Some (Record_Number r, l)) group ls).
  rewrite Hk. set (label := Aspect_Name r) in *.
  destruct (String.eqb_spec label "O") as [HO|HO].
  - split; [by intros name [=]|]. apply IH; [done.. | by left |].
    by intros name [=].
  - assert (Hnext : plain_previous ("I-" +:+ label)) by (right; eauto).
    destruct (String.eqb_spec label (strip_I_prefix previous)) as [Heq|Hneq]; simpl.
    + split.
      * intros name <-%I_mark_inj. apply Hlink.
        destruct Hprev as [->|(name & -> & _)]; [done|]. by rewrite Heq.
      * apply IH; [done..|]. intros name <-%I_mark_inj. by right.
    + split; [by intros name [=]|].
      apply IH; [done..|]. intros name <-%I_mark_inj. by left.
Qed.

(** Property X15.
    When no aspect name contains "I-", the output is a well-formed IOB
    sequence record by record.  Rows and labels taken together in output
    order, an "I-" label always comes directly after the "B-" or "I-" label
    of the same name on a row of the same record, so it never opens the
    output or a record and never follows "O" or another name. *)
Theorem iob_well_formed_plain (df : list Row) :
  Forall (fun r => occurs "I-" (Aspect_Name r) = false) df ->
  spans_well_formed None (flatten (groupby df)) (convert_to_iob df).
Proof.
  intros Hdf. rewrite convert_to_iob_groups. unfold flatten.
  assert (Hgroups : Forall (fun g =>
            Forall (fun r => Record_Number r = fst g) (snd g) /\
            Forall (fun r => occurs "I-" (Aspect_Name r) = false) (snd g))
          (groupby df)).
  { apply Forall_forall. intros [k g] Hg. simpl. split.
    - by apply (groupby_group_key df).
    - apply groupby_group in Hg. subst g.
      apply Forall_forall. intros r [_ Hr]%list_elem_of_filter.
      rewrite Forall_forall in Hdf. by apply Hdf. }
  generalize (@None (Z * string)).
  induction Hgroups as [|[k g] groups [Hk Hg] _ IH]; intros before; [done|].
  simpl in *. apply spans_well_formed_app; [|done].
  rewrite convert_group_labels. simpl.
  apply (labels_from_well_formed k); [done | done | by left | by intros name [=]].
Qed.

(** ** Witnesses *)

Lemma iob_sorted_alignment_witness :
  StronglySorted Z.le (map Record_Number record_by_record) /\
  (flatten (groupby record_by_record) = record_by_record /\
   map decode_label (convert_to_iob record_by_record) =
   map Aspect_Name record_by_record).
Proof.
  assert (Hs : StronglySorted Z.le (map Record_Number record_by_record))
    by (repeat constructor; simpl; lia).
  split; [exact Hs|]. apply (iob_sorted_alignment record_by_record Hs).
Defined.

Lemma iob_per_record_witness :
  (forall k, filter (fun r => Record_Number r = k) interleaved =
             filter (fun r => Record_Number r = k) record_by_record) /\
  convert_to_iob interleaved = convert_to_iob record_by_record.
Proof.
  assert (Hsame : forall k, filter (fun r => Record_Number r = k) interleaved =
                            filter (fun r => Record_Number r = k) record_by_record).
  { intros k. unfold interleaved, record_by_record.
    rewrite !filter_cons, !filter_nil. simpl.
    destruct (decide (2 = k)); destruct (decide (1 = k)); try reflexivity; lia. }
  split; [exact Hsame|]. apply (iob_per_record interleaved record_by_record Hsame).
Defined.

Lemma iob_concat_separated_witness :
  (forall r1 r2, r1 ∈ two_groups -> r2 ∈ map (row 7) ["O"; "Brand"] ->
     Record_Number r1 < Record_Number r2) /\
  convert_to_iob (two_groups ++ map (row 7) ["O"; "Brand"]) =
  convert_to_iob two_groups ++ convert_to_iob (map (row 7) ["O"; "Brand"]).
Proof.
  assert (Hsep : forall r1 r2, r1 ∈ two_groups -> r2 ∈ map (row 7) ["O"; "Brand"] ->
                   Record_Number r1 < Record_Number r2).
  { intros r1 r2 H1 H2. unfold two_groups in H1. simpl in H2.
    repeat (apply elem_of_cons in H1 as [->|H1]);
      [| | |by apply elem_of_nil in H1];
      repeat (apply elem_of_cons in H2 as [->|H2]);
      try (by apply elem_of_nil in H2); simpl; lia. }
  split; [exact Hsep|].
  apply (iob_concat_separated two_groups (map (row 7) ["O"; "Brand"]) Hsep).
Defined.

Lemma iob_well_formed_plain_witness :
  Forall (fun r => occurs "I-" (Aspect_Name r) = false) two_groups /\
  spans_well_formed None (flatten (groupby two_groups)) (convert_to_iob two_groups).
Proof.
  assert (Hplain : Forall (fun r => occurs "I-" (Aspect_Name r) = false) two_groups)
    by (repeat constructor).
  split; [exact Hplain|]. apply (iob_well_formed_plain two_groups Hplain).
Defined.

Lemma convert_to_iob_spec_witness :
  Forall (fun r => occurs "I-" (Aspect_Name r) = false) boundary_rows /\
  convert_to_iob boundary_rows =
  concat (map (fun g => spec_labels "O" (map Aspect_Name (snd g)))
              (groupby boundary_rows)).
Proof.
  assert (Hplain : Forall (fun r => occurs "I-" (Aspect_Name r) = false) boundary_rows)
    by (repeat constructor).
  split; [exact Hplain|]. apply (convert_to_iob_spec boundary_rows Hplain).
Defined.

End EncoderMore.
